(** * idp-octelium-sync: group mapping, user filtering and the Keycloak lookup

    A shallow embedding of [src/mapping/loader.ts], [src/providers/keycloak.ts],
    [src/providers/provider.ts], [src/octelium/types.ts] and [src/index.ts].

    Conventions.
    - A JS string is a [string] of its code units, taken to be below 256; the
      check mark of the log lines lies outside and is written as its UTF-8
      bytes.
    - An optional field ([f?: T]) is an [option T]; [undefined] is [None].
    - [a ?? b] is [nullish a b]; [a?.f] is [a ≫= f].
    - A plain object used as a table is a [gmap] of its own properties, read
      through [getProperty], which also sees what [Object.prototype] supplies.
    - Code that logs, throws or calls the identity provider lives in the [IO]
      monad: the console lines and file writes it emits, and how it ends. *)

From Stdlib Require Import String Ascii List Bool Arith Lia.
From stdpp Require Import base option list strings gmap fin_maps pretty.

Local Open Scope string_scope.
Local Open Scope list_scope.

(** ** JavaScript operators *)

(** [a ?? b]: the right operand only when the left one is null or undefined. *)
Definition nullish {A : Type} (a : option A) (b : A) : A :=
  match a with
  | Some v => v
  | None => b
  end.

Notation "a ?? b" := (nullish a b) (at level 45, right associativity).

(** ** src/mapping/loader.ts *)

Record GroupMappingEntry : Type := mkGroupMappingEntry {
  octeliumGroup : option string;
  displayName : option string;
  policies : option (list string);
  sync : option bool
}.

Record MappingDefaults : Type := mkMappingDefaults {
  unmappedGroups : option string;
  defaultPolicies : option (list string)
}.

Record GroupMapping : Type := mkGroupMapping {
  groups : gmap string GroupMappingEntry;
  defaults : option MappingDefaults
}.

Record ResolvedGroupMapping : Type := mkResolvedGroupMapping {
  resolved_octeliumGroup : string;
  resolved_displayName : string;
  resolved_policies : list string;
  resolved_sync : bool
}.

(** [Required<MappingDefaults>] *)
Record RequiredMappingDefaults : Type := mkRequiredMappingDefaults {
  required_unmappedGroups : string;
  required_defaultPolicies : list string
}.

Record MappingLoader : Type := mkMappingLoader {
  loader_mapping : GroupMapping;
  loader_defaults : RequiredMappingDefaults
}.

(** [constructor(mapping)] *)
Definition new_MappingLoader (mapping : GroupMapping) : MappingLoader :=
  {| loader_mapping := mapping;
     loader_defaults :=
       {| required_unmappedGroups :=
            (defaults mapping ≫= unmappedGroups) ?? "skip";
          required_defaultPolicies :=
            (defaults mapping ≫= defaultPolicies) ?? [] |} |}.

(** The members every plain object inherits from [Object.prototype]. *)
Definition objectPrototypeKeys : list string :=
  [ "constructor"; "hasOwnProperty"; "isPrototypeOf"; "propertyIsEnumerable";
    "toLocaleString"; "toString"; "valueOf"; "__proto__";
    "__defineGetter__"; "__defineSetter__";
    "__lookupGetter__"; "__lookupSetter__" ].

(** What [obj[key]] reads for an inherited member: a function (or, for
    [__proto__], the prototype object). It is truthy and has none of the four
    fields of an entry, so each of them reads as [undefined]. *)
Definition inheritedMember : GroupMappingEntry :=
  {| octeliumGroup := None; displayName := None;
     policies := None; sync := None |}.

(** [obj[key]] on a plain object: the own property if there is one, else the
    inherited member of that name, else [undefined]. *)
Definition getProperty (obj : gmap string GroupMappingEntry) (key : string)
  : option GroupMappingEntry :=
  match obj !! key with
  | Some e => Some e
  | None =>
      if bool_decide (key ∈ objectPrototypeKeys)
      then Some inheritedMember
      else None
  end.

(** [entry.sync === false] *)
Definition isFalse (b : option bool) : bool :=
  match b with
  | Some false => true
  | _ => false
  end.

(** [resolveGroup(idpGroupName)]; [None] is the method's [null]. *)
Definition resolveGroup (this : MappingLoader) (idpGroupName : string)
  : option ResolvedGroupMapping :=
  match getProperty (groups (loader_mapping this)) idpGroupName with
  | Some entry =>
      if isFalse (sync entry) then None
      else
        Some {| resolved_octeliumGroup := octeliumGroup entry ?? idpGroupName;
                resolved_displayName := displayName entry ?? idpGroupName;
                resolved_policies :=
                  policies entry
                    ?? required_defaultPolicies (loader_defaults this);
                resolved_sync := sync entry ?? true |}
  | None =>
      let policy := required_unmappedGroups (loader_defaults this) in
      if String.eqb policy "skip" then None
      else if String.eqb policy "include" then
        Some {| resolved_octeliumGroup := idpGroupName;
                resolved_displayName := idpGroupName;
                resolved_policies :=
                  required_defaultPolicies (loader_defaults this);
                resolved_sync := true |}
      else if String.eqb policy "include-no-policies" then
        Some {| resolved_octeliumGroup := idpGroupName;
                resolved_displayName := idpGroupName;
                resolved_policies := [];
                resolved_sync := true |}
      else None
  end.

(** [getDefinedGroups()]: the own keys of the table. Its callers only count
    them, so the order of [Object.keys] is not modelled. *)
Definition getDefinedGroups (this : MappingLoader) : list string :=
  (map_to_list (groups (loader_mapping this))).*1.

Section ExcludeFilter.

(** [minimatch(username, pattern)], the glob matcher of the minimatch
    package. *)
Variable minimatch : string -> string -> bool.

(** [shouldExcludeUser(username, excludePatterns)] *)
Fixpoint shouldExcludeUser (username : string) (excludePatterns : list string)
  : bool :=
  match excludePatterns with
  | [] => false
  | pattern :: rest =>
      if minimatch username pattern then true
      else shouldExcludeUser username rest
  end.

End ExcludeFilter.

(** ** src/octelium/types.ts *)

Inductive UserType : Type := HUMAN | WORKLOAD.

Record OcteliumUserMetadata : Type := mkOcteliumUserMetadata {
  user_meta_name : string
}.

Record OcteliumUserSpec : Type := mkOcteliumUserSpec {
  user_spec_type : UserType;
  user_spec_email : option string;
  user_spec_groups : option (list string);
  user_spec_attrs : option (gmap string string)
}.

(** [kind] is the constant ["User"]. *)
Record OcteliumUser : Type := mkOcteliumUser {
  user_metadata : OcteliumUserMetadata;
  user_spec : OcteliumUserSpec
}.

Record OcteliumGroupMetadata : Type := mkOcteliumGroupMetadata {
  group_meta_name : string;
  group_meta_displayName : option string
}.

Record OcteliumGroupAuthorization : Type := mkOcteliumGroupAuthorization {
  authorization_policies : option (list string)
}.

Record OcteliumGroupSpec : Type := mkOcteliumGroupSpec {
  group_spec_authorization : option OcteliumGroupAuthorization;
  group_spec_attrs : option (gmap string string)
}.

(** [kind] is the constant ["Group"]. *)
Record OcteliumGroup : Type := mkOcteliumGroup {
  group_metadata : OcteliumGroupMetadata;
  group_spec : OcteliumGroupSpec
}.

(** A rendered manifest: the resources that are serialised into it, in order. *)
Inductive Document : Type :=
| GroupsDocument (resources : list OcteliumGroup)
| UsersDocument (resources : list OcteliumUser).

(** ** Effects: console output, file writes and exceptions *)

(** A thrown value: an [Error] with its [name] and [message]. *)
Record JsError : Type := mkJsError {
  error_name : string;
  error_message : string
}.

(** [new Error(message)] *)
Definition new_Error (message : string) : JsError :=
  {| error_name := "Error"; error_message := message |}.

(** [String(error)], that is [Error.prototype.toString]. *)
Definition String_of_error (e : JsError) : string :=
  match error_name e, error_message e with
  | EmptyString, msg => msg
  | name, EmptyString => name
  | name, msg => name +:+ ": " +:+ msg
  end.

Inductive Outcome (A : Type) : Type :=
| Return (a : A)
| Throw (e : JsError).

Arguments Return {A} a.
Arguments Throw {A} e.

Inductive Event : Type :=
| ConsoleLog (line : string)
| ConsoleWarn (line : string)
| ConsoleLogDocument (doc : Document)
| BunWrite (path : string) (doc : Document).

(** A computation: the events it emitted, in order, and how it ended. *)
Definition IO (A : Type) : Type := list Event * Outcome A.

Definition ret {A : Type} (a : A) : IO A := ([], Return a).

Definition bind {A B : Type} (m : IO A) (k : A -> IO B) : IO B :=
  match m with
  | (evs, Return a) => let (evs', r) := k a in (evs ++ evs', r)
  | (evs, Throw e) => (evs, Throw e)
  end.

Definition throw {A : Type} (e : JsError) : IO A := ([], Throw e).

Definition emit (ev : Event) : IO unit := ([ev], Return tt).

(** [await promise]: an external call that resolves or rejects. *)
Definition await {A : Type} (r : Outcome A) : IO A := ([], r).

(** [try { body } catch (error) { handler }] *)
Definition try_catch {A : Type} (body : IO A) (handler : JsError -> IO A)
  : IO A :=
  match body with
  | (evs, Return a) => (evs, Return a)
  | (evs, Throw e) => let (evs', r) := handler e in (evs ++ evs', r)
  end.

(** [for (const x of xs) { state = body(state, x) }] *)
Fixpoint for_of {A S : Type} (xs : list A) (body : S -> A -> IO S) (s : S)
  : IO S :=
  match xs with
  | [] => ret s
  | x :: rest => bind (body s x) (for_of rest body)
  end.

Definition events {A : Type} (m : IO A) : list Event := m.1.
Definition outcome {A : Type} (m : IO A) : Outcome A := m.2.

Declare Scope io_scope.
Delimit Scope io_scope with io.
Notation "x <- m ;; k" := (bind m (fun x => k))
  (at level 100, m at next level, right associativity) : io_scope.
Notation "m ;; k" := (bind m (fun _ => k))
  (at level 100, right associativity) : io_scope.

(** ** src/providers/provider.ts *)

Record User : Type := mkUser {
  user_id : string;
  user_username : string;
  user_email : string;
  user_enabled : bool;
  user_firstName : option string;
  user_lastName : option string
}.

Record Group : Type := mkGroup {
  group_id : string;
  group_name : string;
  group_path : option string
}.

(** [UserWithGroups extends User]: the user's fields and its group names. *)
Record UserWithGroups : Type := mkUserWithGroups {
  uwg_user : User;
  uwg_groups : list string
}.

Record KeycloakConfig : Type := mkKeycloakConfig {
  config_url : string;
  config_realm : string;
  config_clientId : string;
  config_clientSecret : string
}.

(** ** src/providers/keycloak.ts *)

(** The user records the admin client answers with. *)
Record UserRepresentation : Type := mkUserRepresentation {
  rep_id : string;
  rep_username : string;
  rep_email : option string;
  rep_enabled : option bool;
  rep_firstName : option string;
  rep_lastName : option string
}.

(** The group records the admin client answers with: a forest. *)
#[local] Unset Elimination Schemes.
Inductive GroupRepresentation : Type :=
| mkGroupRepresentation (id name : string) (path : option string)
    (subGroups : option (list GroupRepresentation)).
#[local] Set Elimination Schemes.

(** The admin client, as the answers of the server behind it. Each call takes
    the arguments the provider passes ([max], the group id, the credentials). *)
Record KcAdminClient : Type := mkKcAdminClient {
  client_auth : string -> string -> Outcome unit;
  client_users_find : N -> Outcome (list UserRepresentation);
  client_groups_find : N -> Outcome (list GroupRepresentation);
  client_groups_listMembers : string -> N -> Outcome (list UserRepresentation)
}.

Record KeycloakProvider : Type := mkKeycloakProvider {
  kc_client : KcAdminClient;
  kc_config : KeycloakConfig;
  kc_connected : bool
}.

(** [a || b] on strings: the right operand when the left one is missing or
    empty. *)
Definition or_string (a : option string) (b : string) : string :=
  match a with
  | Some (String c s) => String c s
  | _ => b
  end.

(** The object literal both [getUsers] and [getGroupMembers] map over the
    answer. *)
Definition toUser (u : UserRepresentation) : User :=
  {| user_id := rep_id u;
     user_username := rep_username u;
     user_email := or_string (rep_email u) EmptyString;
     user_enabled := rep_enabled u ?? true;
     user_firstName := rep_firstName u;
     user_lastName := rep_lastName u |}.

(** [flattenGroups] for one tree: push the node, then its subgroups when
    [g.subGroups?.length] is truthy. [result] is the array being filled. *)
Fixpoint flattenGroup (g : GroupRepresentation) (result : list Group)
  : list Group :=
  match g with
  | mkGroupRepresentation id name path subGroups =>
      let result := result ++ [ {| group_id := id; group_name := name;
                                   group_path := path |} ] in
      match subGroups with
      | Some subs =>
          if (0 <? length subs)%nat then
            (fix each (gs : list GroupRepresentation) (result : list Group)
               : list Group :=
               match gs with
               | [] => result
               | g' :: gs' => each gs' (flattenGroup g' result)
               end) subs result
          else result
      | None => result
      end
  end.

(** [flattenGroups(groups, result = [])] *)
Fixpoint flattenGroups (groups : list GroupRepresentation) (result : list Group)
  : list Group :=
  match groups with
  | [] => result
  | g :: rest => flattenGroups rest (flattenGroup g result)
  end.

Section Keycloak.

Local Open Scope io_scope.

(** [new KeycloakProvider(config)]; the client it creates is [client]. *)
Definition new_KeycloakProvider (client : KcAdminClient)
    (config : KeycloakConfig) : KeycloakProvider :=
  {| kc_client := client; kc_config := config; kc_connected := false |}.

(** [connect()]: the provider afterwards. *)
Definition connect (this : KeycloakProvider) : IO KeycloakProvider :=
  try_catch
    (await (client_auth (kc_client this)
              (config_clientId (kc_config this))
              (config_clientSecret (kc_config this)));;
     let this' := {| kc_client := kc_client this;
                     kc_config := kc_config this;
                     kc_connected := true |} in
     emit (ConsoleLog ("✓ Connected to Keycloak at "
                       +:+ config_url (kc_config this)
                       +:+ ", realm: " +:+ config_realm (kc_config this)));;
     ret this')
    (fun error =>
       throw (new_Error ("Failed to connect to Keycloak: "
                         +:+ error_message error))).

Definition ensureConnected (this : KeycloakProvider) : IO unit :=
  if kc_connected this then ret tt
  else throw (new_Error "Not connected to Keycloak. Call connect() first.").

Definition getUsers (this : KeycloakProvider) : IO (list User) :=
  ensureConnected this;;
  users <- await (client_users_find (kc_client this) 10000%N);;
  ret (map toUser users).

Definition getGroups (this : KeycloakProvider) : IO (list Group) :=
  ensureConnected this;;
  groups <- await (client_groups_find (kc_client this) 10000%N);;
  ret (flattenGroups groups []).

Definition getGroupMembers (this : KeycloakProvider) (groupId : string)
  : IO (list User) :=
  ensureConnected this;;
  members <- await (client_groups_listMembers (kc_client this) groupId 10000%N);;
  ret (map toUser members).

(** The inner loop of [getUsersWithGroups]: push the group's name onto the
    array of every member that [userGroupsMap] knows. The arrays are reached
    through the map alone, so the push in place is an update of the map. *)
Definition addMember (groupName : string)
    (userGroupsMap : gmap string (list string)) (member : UserRepresentation)
  : gmap string (list string) :=
  match userGroupsMap !! rep_id member with
  | Some userGroups =>
      <[rep_id member := userGroups ++ [groupName]]> userGroupsMap
  | None => userGroupsMap
  end.

(** One turn of the outer loop, with its [try]/[catch]. *)
Definition fetchMembers (this : KeycloakProvider)
    (userGroupsMap : gmap string (list string)) (group : Group)
  : IO (gmap string (list string)) :=
  try_catch
    (members <- await (client_groups_listMembers (kc_client this)
                         (group_id group) 10000%N);;
     ret (fold_left (addMember (group_name group)) members userGroupsMap))
    (fun error =>
       emit (ConsoleWarn ("Warning: Could not get members for group "
                          +:+ group_name group +:+ ": "
                          +:+ String_of_error error));;
       ret userGroupsMap).

(** [getUsersWithGroups()]. In the last line [|| []] is read as [?? []]: an
    array is truthy, so the fallback is for [undefined] alone. *)
Definition getUsersWithGroups (this : KeycloakProvider)
  : IO (list UserWithGroups) :=
  ensureConnected this;;
  users <- getUsers this;;
  groups <- getGroups this;;
  let userGroupsMap : gmap string (list string) :=
    fold_left (fun m user => <[user_id user := []]> m) users ∅ in
  emit (ConsoleLog ("  Fetching members for " +:+ pretty (length groups)
                    +:+ " groups..."));;
  userGroupsMap <- for_of groups (fetchMembers this) userGroupsMap;;
  ret (map (fun user =>
              {| uwg_user := user;
                 uwg_groups := (userGroupsMap !! user_id user) ?? [] |})
           users).

End Keycloak.

(** ** src/octelium: the manifest generators *)

(** [{ providerName }], the options [runSync] hands to both generators. *)
Record GeneratorOptions : Type := mkGeneratorOptions {
  providerName : string
}.

(** Modelled from the spec: the groups-document entry of one resolved group
    (the generator module of src/octelium is not among the sources). The entry
    carries the target name, the display name and the attached policy list. *)
Definition renderGroup (resolved : ResolvedGroupMapping) : OcteliumGroup :=
  {| group_metadata :=
       {| group_meta_name := resolved_octeliumGroup resolved;
          group_meta_displayName := Some (resolved_displayName resolved) |};
     group_spec :=
       {| group_spec_authorization :=
            Some {| authorization_policies :=
                      Some (resolved_policies resolved) |};
          group_spec_attrs := None |} |}.

(** Modelled from the spec: one turn of the loop of [generateGroupsYaml] (not
    among the sources). The raw group is resolved; a group that resolves to
    absent is left out of the document and of the returned map, any other one
    is appended to the document and recorded under its raw name. *)
Definition renderGroupsStep (mappingLoader : MappingLoader)
    (acc : list OcteliumGroup * gmap string ResolvedGroupMapping)
    (group : Group)
  : list OcteliumGroup * gmap string ResolvedGroupMapping :=
  match resolveGroup mappingLoader (group_name group) with
  | Some resolved =>
      (acc.1 ++ [renderGroup resolved], <[group_name group := resolved]> acc.2)
  | None => acc
  end.

(** Modelled from the spec: [generateGroupsYaml(groups, mappingLoader,
    options)] of src/octelium (not among the sources): the groups document
    and the map from raw name to resolved group, built in one pass over the
    raw groups in their input order. The spec gives [options] no part in it. *)
Definition generateGroupsYaml (groups : list Group)
    (mappingLoader : MappingLoader) (options : GeneratorOptions)
  : Document * gmap string ResolvedGroupMapping :=
  let acc := fold_left (renderGroupsStep mappingLoader) groups ([], ∅) in
  (GroupsDocument acc.1, acc.2).

(** Modelled from the spec: the translation of a user's raw group names (part
    of [generateUsersYaml], not among the sources). Each raw name is looked up
    in the map of resolved groups; a name with no entry is dropped, any other
    one is replaced by the target name of its entry. *)
Definition translateGroups (resolvedGroups : gmap string ResolvedGroupMapping)
    (rawGroupNames : list string) : list string :=
  omap (fun raw => resolved_octeliumGroup <$> resolvedGroups !! raw)
       rawGroupNames.

(** Modelled from the spec: the display attributes of a fetched user that
    flow through unchanged (part of [generateUsersYaml], not among the
    sources): the first and the last name, where the record has them. *)
Definition displayAttrs (user : User) : gmap string string :=
  let attrs : gmap string string := ∅ in
  let attrs := match user_firstName user with
               | Some v => <["firstName" := v]> attrs
               | None => attrs
               end in
  match user_lastName user with
  | Some v => <["lastName" := v]> attrs
  | None => attrs
  end.

(** Modelled from the spec: the users-document entry of one filtered user
    (part of [generateUsersYaml], not among the sources): a human identity
    with the fetched email and display attributes and the translated group
    list. *)
Definition renderUser (resolvedGroups : gmap string ResolvedGroupMapping)
    (user : UserWithGroups) : OcteliumUser :=
  {| user_metadata := {| user_meta_name := user_username (uwg_user user) |};
     user_spec :=
       {| user_spec_type := HUMAN;
          user_spec_email := Some (user_email (uwg_user user));
          user_spec_groups :=
            Some (translateGroups resolvedGroups (uwg_groups user));
          user_spec_attrs := Some (displayAttrs (uwg_user user)) |} |}.

(** Modelled from the spec: [generateUsersYaml(users, resolvedGroups,
    options)] of src/octelium (not among the sources): one entry per filtered
    user, in input order. The spec gives [options] no part in it. *)
Definition generateUsersYaml (users : list UserWithGroups)
    (resolvedGroups : gmap string ResolvedGroupMapping)
    (options : GeneratorOptions) : Document :=
  UsersDocument (map (renderUser resolvedGroups) users).

(** The group names of a groups document, and the group lists of a users
    document. *)
Definition documentGroupNames (doc : Document) : list string :=
  match doc with
  | GroupsDocument resources =>
      map (fun g => group_meta_name (group_metadata g)) resources
  | UsersDocument _ => []
  end.

Definition documentUsers (doc : Document) : list OcteliumUser :=
  match doc with
  | UsersDocument resources => resources
  | GroupsDocument _ => []
  end.

Definition renderedGroupList (user : OcteliumUser) : list string :=
  user_spec_groups (user_spec user) ?? [].

(** ** String methods used by src/index.ts *)

(** The line terminator written as a backslash-n escape in the source. *)
Definition nl : string := String (ascii_of_nat 10) EmptyString.

(** [s.split(",")]: the segments between the separators, empty ones included;
    the empty string splits into one empty segment. *)
Fixpoint split (separator : ascii) (s : string) : list string :=
  match s with
  | EmptyString => [EmptyString]
  | String c rest =>
      if Ascii.eqb c separator then EmptyString :: split separator rest
      else
        match split separator rest with
        | segment :: segments => String c segment :: segments
        | [] => [String c EmptyString]
        end
  end.

(** The white space and line terminators [trim] strips, among the code units
    below 256: tab, line feed, vertical tab, form feed, carriage return,
    space and no-break space. *)
Definition isWhiteSpace (c : ascii) : bool :=
  let n := nat_of_ascii c in
  ((9 <=? n) && (n <=? 13) || (n =? 32) || (n =? 160))%nat.

Fixpoint trimStart (s : string) : string :=
  match s with
  | EmptyString => EmptyString
  | String c rest => if isWhiteSpace c then trimStart rest else s
  end.

Fixpoint trimEnd (s : string) : string :=
  match s with
  | EmptyString => EmptyString
  | String c rest =>
      match trimEnd rest with
      | EmptyString => if isWhiteSpace c then EmptyString
                       else String c EmptyString
      | kept => String c kept
      end
  end.

(** [s.trim()] *)
Definition trim (s : string) : string := trimEnd (trimStart s).

(** ** src/index.ts *)

Record SyncOptions : Type := mkSyncOptions {
  opt_provider : string;
  opt_mapping : string;
  opt_outputUsers : string;
  opt_outputGroups : string;
  opt_keycloakUrl : option string;
  opt_keycloakRealm : option string;
  opt_keycloakClientId : option string;
  opt_keycloakClientSecret : option string;
  opt_excludeUsers : string;
  opt_dryRun : bool
}.

(** The mapping document as [parseYaml] returns it. A cast types it as
    [GroupMapping] without a check, so the [groups] key may in fact be
    missing; a key that is there holds a table, as the type says. *)
Record ParsedMapping : Type := mkParsedMapping {
  parsed_groups : option (gmap string GroupMappingEntry);
  parsed_defaults : option MappingDefaults
}.

(** The exclude patterns of [runSync]:
    [excludeUsers.split(",").map(p => p.trim()).filter(p => p.length > 0)]. *)
Definition excludePatterns (excludeUsers : string) : list string :=
  List.filter (fun p => (0 <? String.length p)%nat)
              (map (fun p => trim p) (split "," excludeUsers)).

(** [if (!value) throw new Error(message)], giving the value that the later
    [value!] reads. A missing and an empty string are both falsy. *)
Definition required (value : option string) (message : string) : IO string :=
  match value with
  | Some (String c s) => ret (String c s)
  | _ => throw (new_Error message)
  end.

(** [array.filter(callback)], for a callback that logs. *)
Fixpoint filter_io {A : Type} (callback : A -> IO bool) (xs : list A)
  : IO (list A) :=
  match xs with
  | [] => ret []
  | x :: rest =>
      bind (callback x) (fun keep =>
      bind (filter_io callback rest) (fun kept =>
      ret (if keep then x :: kept else kept)))
  end.

Section Sync.

(** The collaborators of the run: the glob matcher, the YAML parser, the
    file system and the admin client created for a base URL and a realm. *)
Variable minimatch : string -> string -> bool.
Variable parseYaml : string -> Outcome ParsedMapping.
Variable bun_file_text : string -> Outcome string.
Variable bun_write : string -> Document -> Outcome unit.
Variable new_KcAdminClient : string -> string -> KcAdminClient.

Local Open Scope io_scope.

(** [MappingLoader.fromFile(filePath)] of src/mapping/loader.ts. *)
Definition fromFile (filePath : string) : IO MappingLoader :=
  content <- await (bun_file_text filePath);;
  mapping <- await (parseYaml content);;
  match parsed_groups mapping with
  | None => throw (new_Error "Invalid mapping file: missing 'groups' key")
  | Some table =>
      ret (new_MappingLoader {| groups := table;
                                defaults := parsed_defaults mapping |})
  end.

(** The callback of [usersWithGroups.filter] in [runSync]. *)
Definition keepUser (patterns : list string) (user : UserWithGroups)
  : IO bool :=
  if negb (user_enabled (uwg_user user)) then
    emit (ConsoleLog ("  Skipping disabled user: "
                      +:+ user_username (uwg_user user)));;
    ret false
  else if shouldExcludeUser minimatch (user_username (uwg_user user)) patterns
  then
    emit (ConsoleLog ("  Skipping excluded user: "
                      +:+ user_username (uwg_user user)));;
    ret false
  else ret true.

(** [Bun.write(path, document)] *)
Definition write (path : string) (doc : Document) : IO unit :=
  await (bun_write path doc);;
  emit (BunWrite path doc).

(** [runSync(options)]. The second test of [options.provider] is left out:
    it is always true where it is made. *)
Definition runSync (options : SyncOptions) : IO unit :=
  emit (ConsoleLog ("Starting sync..." +:+ nl));;
  (if negb (String.eqb (opt_provider options) "keycloak") then
     throw (new_Error ("Unsupported provider: " +:+ opt_provider options
                       +:+ ". Supported: keycloak"))
   else ret tt);;
  url <- required (opt_keycloakUrl options) "--keycloak-url is required";;
  realm <- required (opt_keycloakRealm options)
             "--keycloak-realm is required";;
  clientId <- required (opt_keycloakClientId options)
                "--keycloak-client-id is required";;
  clientSecret <- required (opt_keycloakClientSecret options)
    "--keycloak-client-secret is required (or set KEYCLOAK_CLIENT_SECRET env)";;
  emit (ConsoleLog ("Loading mapping from: " +:+ opt_mapping options));;
  mappingLoader <- fromFile (opt_mapping options);;
  emit (ConsoleLog ("✓ Loaded mapping with "
                    +:+ pretty (length (getDefinedGroups mappingLoader))
                    +:+ " groups defined" +:+ nl));;
  let provider :=
    new_KeycloakProvider (new_KcAdminClient url realm)
      {| config_url := url; config_realm := realm;
         config_clientId := clientId;
         config_clientSecret := clientSecret |} in
  provider <- connect provider;;
  emit (ConsoleLog (nl +:+ "Fetching groups..."));;
  groups <- getGroups provider;;
  emit (ConsoleLog ("✓ Found " +:+ pretty (length groups) +:+ " groups"));;
  emit (ConsoleLog "Fetching users with group memberships...");;
  usersWithGroups <- getUsersWithGroups provider;;
  emit (ConsoleLog ("✓ Found " +:+ pretty (length usersWithGroups)
                    +:+ " users" +:+ nl));;
  let patterns := excludePatterns (opt_excludeUsers options) in
  filteredUsers <- filter_io (keepUser patterns) usersWithGroups;;
  emit (ConsoleLog (nl +:+ "✓ " +:+ pretty (length filteredUsers)
                    +:+ " users after filtering"));;
  let generatorOptions := {| providerName := opt_provider options |} in
  emit (ConsoleLog (nl +:+ "Generating groups manifest..."));;
  let '(groupsYaml, resolvedGroups) :=
    generateGroupsYaml groups mappingLoader generatorOptions in
  emit (ConsoleLog ("✓ Generated " +:+ pretty (size resolvedGroups)
                    +:+ " groups"));;
  emit (ConsoleLog "Generating users manifest...");;
  let usersYaml :=
    generateUsersYaml filteredUsers resolvedGroups generatorOptions in
  emit (ConsoleLog ("✓ Generated " +:+ pretty (length filteredUsers)
                    +:+ " users"));;
  if opt_dryRun options then
    emit (ConsoleLog (nl +:+ "--- DRY RUN: groups.yaml ---"));;
    emit (ConsoleLogDocument groupsYaml);;
    emit (ConsoleLog (nl +:+ "--- DRY RUN: users.yaml ---"));;
    emit (ConsoleLogDocument usersYaml)
  else
    emit (ConsoleLog (nl +:+ "Writing " +:+ opt_outputGroups options
                      +:+ "..."));;
    write (opt_outputGroups options) groupsYaml;;
    emit (ConsoleLog ("Writing " +:+ opt_outputUsers options +:+ "..."));;
    write (opt_outputUsers options) usersYaml;;
    emit (ConsoleLog (nl +:+ "✓ Sync completed successfully!")).

End Sync.

(** ** Sample data *)

(** The mapping of the scenarios: [admins] is renamed and given a policy,
    everything else is skipped. *)
Definition adminsEntry : GroupMappingEntry :=
  {| octeliumGroup := Some "administrators"; displayName := None;
     policies := Some ["admin-policy"]; sync := None |}.

Definition scenarioMapping : GroupMapping :=
  {| groups := {[ "admins" := adminsEntry ]};
     defaults := Some {| unmappedGroups := Some "skip";
                         defaultPolicies := None |} |}.

(** An entry that is switched off, whatever else it says. *)
Definition disabledEntry : GroupMappingEntry :=
  {| octeliumGroup := Some "administrators"; displayName := Some "Admins";
     policies := Some ["admin-policy"]; sync := Some false |}.

Definition disabledMapping : GroupMapping :=
  {| groups := {[ "admins" := disabledEntry ]};
     defaults := Some {| unmappedGroups := Some "include";
                         defaultPolicies := Some ["base"] |} |}.

(** An entry whose target name is given as the empty string. *)
Definition blankTargetMapping : GroupMapping :=
  {| groups := {[ "admins" := {| octeliumGroup := Some EmptyString;
                                 displayName := None; policies := None;
                                 sync := None |} ]};
     defaults := None |}.

(** A mapping with an empty table and no defaults block. *)
Definition emptyMapping : GroupMapping :=
  {| groups := ∅; defaults := None |}.

(** A stand-in for the glob matcher, to run the filter on examples. It knows
    the wildcards [*] and [?] only and is not the matcher of the minimatch
    package. *)
Fixpoint wildcardMatchChars (pattern : list ascii) (s : list ascii) : bool :=
  match pattern with
  | [] => match s with [] => true | _ :: _ => false end
  | p :: pattern' =>
      if Ascii.eqb p "*" then
        (fix star (s : list ascii) : bool :=
           wildcardMatchChars pattern' s
           || match s with
              | [] => false
              | _ :: s' => star s'
              end) s
      else
        match s with
        | [] => false
        | c :: s' =>
            (Ascii.eqb p "?" || Ascii.eqb p c) && wildcardMatchChars pattern' s'
        end
  end.

Definition wildcardMatch (username pattern : string) : bool :=
  wildcardMatchChars (list_ascii_of_string pattern)
                     (list_ascii_of_string username).

Definition sampleUser (username : string) (enabled : bool)
    (groupNames : list string) : UserWithGroups :=
  {| uwg_user := {| user_id := "id-" +:+ username; user_username := username;
                    user_email := username +:+ "@example.org";
                    user_enabled := enabled;
                    user_firstName := None; user_lastName := None |};
     uwg_groups := groupNames |}.

Definition alice : UserWithGroups := sampleUser "alice" true ["admins"; "guests"].
Definition bob : UserWithGroups := sampleUser "bob" false ["admins"].
Definition svcBatch : UserWithGroups := sampleUser "svc-batch" true [].
Definition svc : UserWithGroups := sampleUser "svc" true [].

(** A run against a mapping file that has a defaults block and no groups
    table. *)
Definition sampleOptions : SyncOptions :=
  {| opt_provider := "keycloak";
     opt_mapping := "group-mapping.yaml";
     opt_outputUsers := "users.yaml";
     opt_outputGroups := "groups.yaml";
     opt_keycloakUrl := Some "https://idp.example.org";
     opt_keycloakRealm := Some "main";
     opt_keycloakClientId := Some "sync";
     opt_keycloakClientSecret := Some "secret";
     opt_excludeUsers := "svc-*";
     opt_dryRun := false |}.

Definition sampleFiles (path : string) : Outcome string :=
  if String.eqb path "group-mapping.yaml" then Return "defaults: {}"
  else if String.eqb path "empty-table.yaml" then Return "groups: {}"
  else Throw {| error_name := "ENOENT";
                error_message := "no such file or directory" |}.

Definition sampleParse (content : string) : Outcome ParsedMapping :=
  if String.eqb content "defaults: {}" then
    Return {| parsed_groups := None;
              parsed_defaults := Some {| unmappedGroups := None;
                                         defaultPolicies := None |} |}
  else if String.eqb content "groups: {}" then
    Return {| parsed_groups := Some ∅; parsed_defaults := None |}
  else Throw {| error_name := "YAMLParseError";
                error_message := "unexpected content" |}.

(** A server with two users and two groups; the member listing of the second
    group fails. *)
Definition aliceRep : UserRepresentation :=
  {| rep_id := "u1"; rep_username := "alice"; rep_email := None;
     rep_enabled := None; rep_firstName := None; rep_lastName := None |}.

Definition bobRep : UserRepresentation :=
  {| rep_id := "u2"; rep_username := "bob"; rep_email := Some "bob@example.org";
     rep_enabled := Some false; rep_firstName := None; rep_lastName := None |}.

Definition networkError : JsError :=
  {| error_name := "Error"; error_message := "Network response was not OK" |}.

Definition sampleClient : KcAdminClient :=
  {| client_auth := fun _ _ => Return tt;
     client_users_find := fun _ => Return [aliceRep; bobRep];
     client_groups_find := fun _ =>
       Return [ mkGroupRepresentation "g1" "admins" (Some "/admins")
                  (Some [ mkGroupRepresentation "g3" "ops" (Some "/admins/ops")
                            None ]);
                mkGroupRepresentation "g2" "guests" None (Some []) ];
     client_groups_listMembers := fun id _ =>
       if String.eqb id "g1" then Return [aliceRep; bobRep]
       else if String.eqb id "g3" then Return [bobRep]
       else Throw networkError |}.

Definition sampleProvider : KeycloakProvider :=
  {| kc_client := sampleClient;
     kc_config := {| config_url := "https://idp.example.org";
                     config_realm := "main"; config_clientId := "sync";
                     config_clientSecret := "secret" |};
     kc_connected := true |}.

Definition guestsGroup : Group :=
  {| group_id := "g2"; group_name := "guests"; group_path := None |}.

(** The two raw groups of the scenarios. *)
Definition rawGroups : list Group :=
  [ {| group_id := "g1"; group_name := "admins"; group_path := None |};
    {| group_id := "g2"; group_name := "guests"; group_path := None |} ].

Definition sampleGeneratorOptions : GeneratorOptions :=
  {| providerName := "keycloak" |}.

(** ** Definitions used to state the properties *)

(** [segments.join(",")] *)
Fixpoint join (separator : ascii) (segments : list string) : string :=
  match segments with
  | [] => EmptyString
  | [segment] => segment
  | segment :: rest => segment +:+ String separator (join separator rest)
  end.

Fixpoint contains (c : ascii) (s : string) : bool :=
  match s with
  | EmptyString => false
  | String c' rest => Ascii.eqb c' c || contains c rest
  end.

(** What one segment contributes to the effective patterns, in the words of
    the specification: the segment trimmed, unless that is empty. *)
Definition effectivePattern (segment : string) : option string :=
  match trim segment with
  | EmptyString => None
  | pattern => Some pattern
  end.

(** The decision of the filter callback, without its log lines. *)
Definition kept (minimatch : string -> string -> bool)
    (patterns : list string) (user : UserWithGroups) : bool :=
  user_enabled (uwg_user user)
  && negb (existsb (minimatch (user_username (uwg_user user))) patterns).


(** The options pass the checks [runSync] makes before it loads the mapping:
    the provider is [keycloak] and its four settings are given and
    non-empty. *)
Definition given (value : option string) : bool :=
  match value with
  | Some (String _ _) => true
  | _ => false
  end.

Definition optionsAccepted (options : SyncOptions) : bool :=
  String.eqb (opt_provider options) "keycloak"
  && given (opt_keycloakUrl options)
  && given (opt_keycloakRealm options)
  && given (opt_keycloakClientId options)
  && given (opt_keycloakClientSecret options).

(** The same server, except that the member listing of the group [groupId]
    succeeds and is empty. *)
Definition withNoMembers (client : KcAdminClient) (groupId : string)
  : KcAdminClient :=
  {| client_auth := client_auth client;
     client_users_find := client_users_find client;
     client_groups_find := client_groups_find client;
     client_groups_listMembers := fun id max =>
       if String.eqb id groupId then Return []
       else client_groups_listMembers client id max |}.

Definition withClient (this : KeycloakProvider) (client : KcAdminClient)
  : KeycloakProvider :=
  {| kc_client := client; kc_config := kc_config this;
     kc_connected := kc_connected this |}.

(** What one turn of the member loop does to the map, without its warning. *)
Definition membersStep (client : KcAdminClient)
    (userGroupsMap : gmap string (list string)) (group : Group)
  : gmap string (list string) :=
  match client_groups_listMembers client (group_id group) 10000%N with
  | Return members =>
      fold_left (addMember (group_name group)) members userGroupsMap
  | Throw _ => userGroupsMap
  end.

(** The warning [getUsersWithGroups] prints for a group whose member listing
    failed with [error]. *)
Definition memberWarning (group : Group) (error : JsError) : Event :=
  ConsoleWarn ("Warning: Could not get members for group "
               +:+ group_name group +:+ ": " +:+ String_of_error error).

(** ** Further definitions used to state properties *)

(** A mapping whose table lists a switched-off group beside a plain one. *)
Definition mixedMapping : GroupMapping :=
  {| groups := {[ "admins" := adminsEntry; "legacy" := disabledEntry ]};
     defaults := Some {| unmappedGroups := Some "include-no-policies";
                         defaultPolicies := Some ["base"] |} |}.

(** White space at either end of a string. *)
Definition startsWithWhiteSpace (s : string) : bool :=
  match s with
  | EmptyString => false
  | String c _ => isWhiteSpace c
  end.

Fixpoint endsWithWhiteSpace (s : string) : bool :=
  match s with
  | EmptyString => false
  | String c EmptyString => isWhiteSpace c
  | String _ rest => endsWithWhiteSpace rest
  end.

(** Every character of the string passes the test. *)
Fixpoint allChars (test : ascii -> bool) (s : string) : bool :=
  match s with
  | EmptyString => true
  | String c rest => test c && allChars test rest
  end.

(** A string of commas and white space only. *)
Definition blank (s : string) : bool :=
  allChars (fun c => isWhiteSpace c || Ascii.eqb c ",") s.

(** The line the filter callback prints for a user it drops. *)
Definition skipLine (minimatch : string -> string -> bool)
    (patterns : list string) (user : UserWithGroups) : option Event :=
  if negb (user_enabled (uwg_user user)) then
    Some (ConsoleLog ("  Skipping disabled user: "
                      +:+ user_username (uwg_user user)))
  else if existsb (minimatch (user_username (uwg_user user))) patterns then
    Some (ConsoleLog ("  Skipping excluded user: "
                      +:+ user_username (uwg_user user)))
  else None.

(** The message for the first Keycloak setting that is missing or empty, in
    the order [runSync] checks them. *)
Definition missingSetting (options : SyncOptions) : string :=
  if negb (given (opt_keycloakUrl options)) then "--keycloak-url is required"
  else if negb (given (opt_keycloakRealm options)) then
    "--keycloak-realm is required"
  else if negb (given (opt_keycloakClientId options)) then
    "--keycloak-client-id is required"
  else
    "--keycloak-client-secret is required (or set KEYCLOAK_CLIENT_SECRET env)".

(** The paths of the files an event list writes, in order. *)
Definition writesOf (evs : list Event) : list string :=
  omap (fun ev => match ev with
                  | BunWrite path _ => Some path
                  | _ => None
                  end) evs.

(** What matters of a run for its output files: the paths written and how
    the run ended. *)
Definition summary {A : Type} (m : IO A) : list string * Outcome A :=
  (writesOf (events m), outcome m).

(** Options that leave out the client secret. *)
Definition noSecretOptions : SyncOptions :=
  {| opt_provider := "keycloak";
     opt_mapping := "group-mapping.yaml";
     opt_outputUsers := "users.yaml";
     opt_outputGroups := "groups.yaml";
     opt_keycloakUrl := Some "https://idp.example.org";
     opt_keycloakRealm := Some "main";
     opt_keycloakClientId := Some "sync";
     opt_keycloakClientSecret := None;
     opt_excludeUsers := EmptyString;
     opt_dryRun := false |}.

(** A run against the mapping file with an empty groups table, as a dry run
    and as a run that writes. *)
Definition dryRunOptions : SyncOptions :=
  {| opt_provider := "keycloak";
     opt_mapping := "empty-table.yaml";
     opt_outputUsers := "users.yaml";
     opt_outputGroups := "groups.yaml";
     opt_keycloakUrl := Some "https://idp.example.org";
     opt_keycloakRealm := Some "main";
     opt_keycloakClientId := Some "sync";
     opt_keycloakClientSecret := Some "secret";
     opt_excludeUsers := "svc-*";
     opt_dryRun := true |}.

Definition writingOptions : SyncOptions :=
  {| opt_provider := "keycloak";
     opt_mapping := "empty-table.yaml";
     opt_outputUsers := "users.yaml";
     opt_outputGroups := "groups.yaml";
     opt_keycloakUrl := Some "https://idp.example.org";
     opt_keycloakRealm := Some "main";
     opt_keycloakClientId := Some "sync";
     opt_keycloakClientSecret := Some "secret";
     opt_excludeUsers := "svc-*";
     opt_dryRun := false |}.

(** A disk that takes every write, and one that refuses [users.yaml]. *)
Definition writableDisk (path : string) (doc : Document) : Outcome unit :=
  Return tt.

Definition usersRefusedDisk (path : string) (doc : Document) : Outcome unit :=
  if String.eqb path "users.yaml" then
    Throw {| error_name := "EACCES"; error_message := "permission denied" |}
  else Return tt.

(** The groups of one tree of the server's answer, each before its
    subgroups, siblings in their order. *)
Fixpoint preorder (g : GroupRepresentation) : list Group :=
  match g with
  | mkGroupRepresentation id name path subGroups =>
      {| group_id := id; group_name := name; group_path := path |}
      :: match subGroups with
         | Some subs => flat_map preorder subs
         | None => []
         end
  end.

(** Induction over a group tree, with the property known of all subgroups. *)
Fixpoint GroupRepresentation_tree_ind (P : GroupRepresentation -> Prop)
    (step : forall id name path subGroups,
        match subGroups with
        | Some subs => Forall P subs
        | None => True
        end ->
        P (mkGroupRepresentation id name path subGroups))
    (g : GroupRepresentation) : P g :=
  match g with
  | mkGroupRepresentation id name path subGroups =>
      step id name path subGroups
        (match subGroups as sg
               return match sg with
                      | Some subs => Forall P subs
                      | None => True
                      end
         with
         | Some subs =>
             (fix all (gs : list GroupRepresentation) : Forall P gs :=
                match gs with
                | [] => @List.Forall_nil _ P
                | g' :: gs' =>
                    @List.Forall_cons _ P g' gs'
                      (GroupRepresentation_tree_ind P step g') (all gs')
                end) subs
         | None => I
         end)
  end.

(** The names one group adds to the memberships of the user [userId]: its
    name once for every listed member with that id, and nothing when the
    listing fails. *)
Definition listedMemberships (client : KcAdminClient) (userId : string)
    (group : Group) : list string :=
  match client_groups_listMembers client (group_id group) 10000%N with
  | Return members =>
      map (fun _ => group_name group)
          (List.filter (fun member => String.eqb (rep_id member) userId)
                       members)
  | Throw _ => []
  end.

Definition membershipsOf (client : KcAdminClient) (groups : list Group)
    (userId : string) : list string :=
  flat_map (listedMemberships client userId) groups.

(** The warning of a group, when its member listing fails. *)
Definition listingWarning (client : KcAdminClient) (group : Group)
  : option Event :=
  match client_groups_listMembers client (group_id group) 10000%N with
  | Return _ => None
  | Throw error => Some (memberWarning group error)
  end.

(** The error of a lookup made without a session. *)
Definition notConnected : JsError :=
  new_Error "Not connected to Keycloak. Call connect() first.".

(** A server that turns the credentials down. *)
Definition refusingClient : KcAdminClient :=
  {| client_auth := fun _ _ =>
       Throw {| error_name := "Error"; error_message := "invalid_client" |};
     client_users_find := client_users_find sampleClient;
     client_groups_find := client_groups_find sampleClient;
     client_groups_listMembers := client_groups_listMembers sampleClient |}.

(** ** Trimming, as a relation *)

(** [trimmed] is [s] without the white space at its two ends: [s] is
    [trimmed] between two runs of white space, and [trimmed] neither starts
    nor ends with white space. *)
Definition isTrimOf (s trimmed : string) : Prop :=
  exists leading trailing : string,
    s = leading +:+ trimmed +:+ trailing
    /\ allChars isWhiteSpace leading = true
    /\ allChars isWhiteSpace trailing = true
    /\ startsWithWhiteSpace trimmed = false
    /\ endsWithWhiteSpace trimmed = false.

(** The code units that count as white space: tab, line feed, vertical tab,
    form feed, carriage return, space and no-break space. *)
Definition whiteSpaceCodes : list nat := [9; 10; 11; 12; 13; 32; 160]%nat.

(** ** Glob matching *)

(** A pattern, read left to right: [*], [?], a bracket expression, or a
    character that stands for itself. A member of a bracket expression is a
    range of characters, a single character being the range from itself to
    itself. *)
Inductive GlobToken : Type :=
| AnyRun
| AnyChar
| OneOf (negated : bool) (members : list (ascii * ascii))
| Literal (c : ascii).

Fixpoint classMembers (body : list ascii) : list (ascii * ascii) :=
  match body with
  | lo :: rest =>
      match rest with
      | dash :: hi :: rest' =>
          if Ascii.eqb dash "-" then (lo, hi) :: classMembers rest'
          else (lo, lo) :: classMembers rest
      | _ => (lo, lo) :: classMembers rest
      end
  | [] => []
  end.

(** The characters up to the first closing bracket, and how many characters
    that takes, the bracket included. *)
Fixpoint untilClose (chars : list ascii) : option (list ascii * nat) :=
  match chars with
  | [] => None
  | c :: rest =>
      if Ascii.eqb c "]" then Some ([], 1%nat)
      else match untilClose rest with
           | Some (body, n) => Some (c :: body, S n)
           | None => None
           end
  end.

(** The bracket expression that starts after an opening bracket: whether it
    is negated by a leading [!] or [^], its members, and how many characters
    it takes. A closing bracket right at the start is a member. There is
    none when no bracket closes it. *)
Definition parseClass (chars : list ascii)
  : option (bool * list (ascii * ascii) * nat) :=
  let '(negated, body, used) :=
    match chars with
    | c :: rest =>
        if Ascii.eqb c "!" || Ascii.eqb c "^" then (true, rest, 1%nat)
        else (false, chars, 0%nat)
    | [] => (false, [], 0%nat)
    end in
  match body with
  | c :: rest =>
      if Ascii.eqb c "]" then
        match untilClose rest with
        | Some (more, n) => Some (negated, classMembers (c :: more), used + 1 + n)
        | None => None
        end
      else
        match untilClose body with
        | Some (members, n) => Some (negated, classMembers members, used + n)
        | None => None
        end
  | [] => None
  end.

(** The tokens of a pattern. [skip] counts the characters still to pass over
    because a bracket expression has taken them. An opening bracket that
    nothing closes stands for itself. *)
Fixpoint tokenize (skip : nat) (pattern : list ascii) : list GlobToken :=
  match pattern with
  | [] => []
  | c :: rest =>
      match skip with
      | S skip' => tokenize skip' rest
      | O =>
          if Ascii.eqb c "*" then AnyRun :: tokenize 0 rest
          else if Ascii.eqb c "?" then AnyChar :: tokenize 0 rest
          else if Ascii.eqb c "[" then
            match parseClass rest with
            | Some (negated, members, used) =>
                OneOf negated members :: tokenize used rest
            | None => Literal c :: tokenize 0 rest
            end
          else Literal c :: tokenize 0 rest
      end
  end.

Definition inClass (members : list (ascii * ascii)) (c : ascii) : bool :=
  existsb (fun member =>
             (nat_of_ascii member.1 <=? nat_of_ascii c)%nat
             && (nat_of_ascii c <=? nat_of_ascii member.2)%nat)
          members.

Fixpoint matchTokens (tokens : list GlobToken) (s : list ascii) : bool :=
  match tokens with
  | [] => match s with [] => true | _ :: _ => false end
  | AnyRun :: tokens' =>
      (fix run (s : list ascii) : bool :=
         matchTokens tokens' s
         || match s with
            | [] => false
            | _ :: s' => run s'
            end) s
  | AnyChar :: tokens' =>
      match s with
      | [] => false
      | _ :: s' => matchTokens tokens' s'
      end
  | OneOf negated members :: tokens' =>
      match s with
      | [] => false
      | c :: s' => xorb negated (inClass members c) && matchTokens tokens' s'
      end
  | Literal p :: tokens' =>
      match s with
      | [] => false
      | c :: s' => Ascii.eqb p c && matchTokens tokens' s'
      end
  end.

(** The shell-glob match of the specification, in its words: [*], [?] and
    character classes as in POSIX glob, every other character standing for
    itself; the whole name has to match. *)
Definition posixGlob (name pattern : string) : bool :=
  matchTokens (tokenize 0 (list_ascii_of_string pattern))
              (list_ascii_of_string name).

(** The leading [!]s of a pattern: whether their number is odd, and the
    pattern after them. *)
Fixpoint parseNegate (pattern : list ascii) : bool * list ascii :=
  match pattern with
  | c :: rest =>
      if Ascii.eqb c "!" then
        let (negate, rest') := parseNegate rest in (negb negate, rest')
      else (false, pattern)
  | [] => (false, [])
  end.

(** The minimatch package is not among the sources. This is its matcher as
    the package documents it, for a non-empty name other than [.] and [..]
    and a pattern, both without slash, brace, parenthesis or backslash, the
    pattern without a named character class such as [[:alpha:]]:
    - a pattern that starts with [#] is a comment and matches nothing;
    - each leading [!] negates the match of the rest of the pattern;
    - the rest matches as a glob, except that a name starting with a dot is
      matched only by a pattern that starts with a dot. *)
Definition minimatchDocumented (name pattern : string) : bool :=
  match pattern with
  | EmptyString => match name with EmptyString => true | _ => false end
  | String first _ =>
      if Ascii.eqb first "#" then false
      else
        let (negate, rest) := parseNegate (list_ascii_of_string pattern) in
        let dotAllowed :=
          match name, rest with
          | String n _, p :: _ => negb (Ascii.eqb n ".") || Ascii.eqb p "."
          | _, _ => true
          end in
        xorb negate
             (dotAllowed
              && matchTokens (tokenize 0 rest) (list_ascii_of_string name))
  end.

Definition startsWithDot (s : string) : bool :=
  match s with
  | String c _ => Ascii.eqb c "."
  | EmptyString => false
  end.
(** ** Resolution of a group name *)

Lemma getProperty_own (obj : gmap string GroupMappingEntry) (key : string)
    (entry : GroupMappingEntry) :
  obj !! key = Some entry -> getProperty obj key = Some entry.
Proof. intros Hown. unfold getProperty. now rewrite Hown. Qed.

Lemma getProperty_absent (obj : gmap string GroupMappingEntry) (key : string) :
  obj !! key = None -> key ∉ objectPrototypeKeys -> getProperty obj key = None.
Proof.
  intros Hown Hproto. unfold getProperty. rewrite Hown.
  now rewrite bool_decide_eq_false_2.
Qed.

Lemma getProperty_inherited (obj : gmap string GroupMappingEntry)
    (key : string) :
  obj !! key = None -> key ∈ objectPrototypeKeys ->
  getProperty obj key = Some inheritedMember.
Proof.
  intros Hown Hproto. unfold getProperty. rewrite Hown.
  now rewrite bool_decide_eq_true_2.
Qed.

(** [getProperty] reads nothing of the table but the own property at the key. *)
Lemma getProperty_local (obj1 obj2 : gmap string GroupMappingEntry)
    (key : string) :
  obj1 !! key = obj2 !! key -> getProperty obj1 key = getProperty obj2 key.
Proof. intros Heq. unfold getProperty. now rewrite Heq. Qed.

(** The resolution reads the table through [getProperty] at the one name and
    the loader's defaults, nothing else. *)
Lemma resolveGroup_reads (m1 m2 : GroupMapping) (G : string) :
  getProperty (groups m1) G = getProperty (groups m2) G ->
  loader_defaults (new_MappingLoader m1) = loader_defaults (new_MappingLoader m2) ->
  resolveGroup (new_MappingLoader m1) G = resolveGroup (new_MappingLoader m2) G.
Proof.
  intros Hentry Hdefaults. unfold resolveGroup.
  cbn [loader_mapping new_MappingLoader]. cbn [loader_defaults] in Hdefaults.
  now rewrite Hentry, Hdefaults.
Qed.

(** C1. A group name that the mapping table holds, with a sync flag that is
    not explicitly false, resolves to a group whose target name is the
    entry's [octeliumGroup] if given and the raw name otherwise, whose display
    name is the entry's [displayName] if given and the raw name otherwise,
    whose policies are the entry's if given and the configured default policy
    list otherwise (empty when none is configured), and whose sync flag is
    true. *)
Theorem resolveGroup_mapped (m : GroupMapping) (G : string)
    (entry : GroupMappingEntry) :
  groups m !! G = Some entry ->
  sync entry ≠ Some false ->
  resolveGroup (new_MappingLoader m) G =
    Some {| resolved_octeliumGroup := default G (octeliumGroup entry);
            resolved_displayName := default G (displayName entry);
            resolved_policies :=
              default (default [] (defaults m ≫= defaultPolicies))
                      (policies entry);
            resolved_sync := true |}.
Proof.
  intros Hentry Hsync. unfold resolveGroup. cbn [loader_mapping new_MappingLoader].
  rewrite (getProperty_own _ _ _ Hentry).
  destruct entry as [target display pols [[|]|]]; cbn in *;
    try congruence; reflexivity.
Qed.

Lemma resolveGroup_mapped_witness :
  resolveGroup (new_MappingLoader scenarioMapping) "admins" =
    Some {| resolved_octeliumGroup := "administrators";
            resolved_displayName := "admins";
            resolved_policies := ["admin-policy"];
            resolved_sync := true |}.
Proof.
  apply (resolveGroup_mapped scenarioMapping "admins" adminsEntry).
  - reflexivity.
  - discriminate.
Defined.

(** C3. A group name whose entry explicitly sets [sync] to false resolves to
    absent, whatever the entry's other fields and the defaults are. *)
Theorem resolveGroup_sync_false (m : GroupMapping) (G : string)
    (entry : GroupMappingEntry) :
  groups m !! G = Some entry ->
  sync entry = Some false ->
  resolveGroup (new_MappingLoader m) G = None.
Proof.
  intros Hentry Hsync. unfold resolveGroup. cbn [loader_mapping new_MappingLoader].
  rewrite (getProperty_own _ _ _ Hentry). now rewrite Hsync.
Qed.

Lemma resolveGroup_sync_false_witness :
  resolveGroup (new_MappingLoader disabledMapping) "admins" = None.
Proof.
  apply (resolveGroup_sync_false disabledMapping "admins" disabledEntry).
  - reflexivity.
  - reflexivity.
Defined.

(** A name that is neither in the table nor inherited follows the configured
    unmapped-groups policy: [include] gives the raw name with the default
    policies, [include-no-policies] the raw name with no policies, and
    [skip], a missing policy and any other value give absent. *)
Lemma resolveGroup_unmapped_plain (m : GroupMapping) (G : string) :
  groups m !! G = None ->
  G ∉ objectPrototypeKeys ->
  resolveGroup (new_MappingLoader m) G =
    let policy := default "skip" (defaults m ≫= unmappedGroups) in
    if decide (policy = "include") then
      Some {| resolved_octeliumGroup := G; resolved_displayName := G;
              resolved_policies := default [] (defaults m ≫= defaultPolicies);
              resolved_sync := true |}
    else if decide (policy = "include-no-policies") then
      Some {| resolved_octeliumGroup := G; resolved_displayName := G;
              resolved_policies := []; resolved_sync := true |}
    else None.
Proof.
  intros Hentry Hproto. unfold resolveGroup.
  cbn [loader_mapping loader_defaults new_MappingLoader
       required_unmappedGroups required_defaultPolicies].
  rewrite (getProperty_absent _ _ Hentry Hproto).
  change (nullish (defaults m ≫= unmappedGroups) "skip")
    with (default "skip" (defaults m ≫= unmappedGroups)).
  change (nullish (defaults m ≫= defaultPolicies) [])
    with (default [] (defaults m ≫= defaultPolicies)).
  cbv zeta.
  set (policy := default "skip" (defaults m ≫= unmappedGroups)).
  destruct (String.eqb_spec policy "skip") as [Hskip|Hskip].
  - rewrite Hskip. reflexivity.
  - destruct (String.eqb_spec policy "include") as [Hinc|Hinc].
    + rewrite decide_True by exact Hinc. reflexivity.
    + rewrite decide_False by exact Hinc.
      destruct (String.eqb_spec policy "include-no-policies") as [Hnp|Hnp].
      * rewrite decide_True by exact Hnp. reflexivity.
      * rewrite decide_False by exact Hnp. reflexivity.
Qed.

Lemma resolveGroup_unmapped_plain_witness :
  resolveGroup (new_MappingLoader scenarioMapping) "guests" = None.
Proof.
  apply (resolveGroup_unmapped_plain scenarioMapping "guests").
  - reflexivity.
  - apply (bool_decide_eq_false_1 ("guests" ∈ objectPrototypeKeys)).
    vm_compute. reflexivity.
Defined.

(** C2, where the code departs from it. The table of [emptyMapping] holds no
    group and no unmapped-groups policy is configured, so the policy is
    [skip]; yet the name [constructor] reads the member that the table
    inherits from [Object.prototype], takes the branch of a listed group and
    resolves to a group instead of absent. *)
Theorem resolveGroup_inherited_name :
  groups emptyMapping !! "constructor" = None /\
  required_unmappedGroups (loader_defaults (new_MappingLoader emptyMapping))
    = "skip" /\
  resolveGroup (new_MappingLoader emptyMapping) "constructor" =
    Some {| resolved_octeliumGroup := "constructor";
            resolved_displayName := "constructor";
            resolved_policies := [];
            resolved_sync := true |}.
Proof. repeat split; reflexivity. Qed.

(** C5, as stated, fails: an entry may give the empty string as its target
    name, and [??] keeps it. *)
Lemma resolveGroup_blank_target :
  exists r : ResolvedGroupMapping,
    resolveGroup (new_MappingLoader blankTargetMapping) "admins" = Some r /\
    resolved_octeliumGroup r = EmptyString.
Proof.
  exists {| resolved_octeliumGroup := EmptyString;
            resolved_displayName := "admins";
            resolved_policies := [];
            resolved_sync := true |}.
  split; reflexivity.
Qed.

(** C5, amended. Whenever a group name resolves to a group, the target name
    is the [octeliumGroup] of the name's entry if the entry gives one, and
    the raw name otherwise; so it is non-empty whenever the raw name is
    non-empty and the entry does not give the empty string as its target
    name. *)
Theorem resolveGroup_target_name (m : GroupMapping) (G : string)
    (r : ResolvedGroupMapping) :
  resolveGroup (new_MappingLoader m) G = Some r ->
  resolved_octeliumGroup r = default G (groups m !! G ≫= octeliumGroup) /\
  (G ≠ EmptyString ->
   groups m !! G ≫= octeliumGroup ≠ Some EmptyString ->
   resolved_octeliumGroup r ≠ EmptyString).
Proof.
  intros Hres.
  assert (Htarget :
    resolved_octeliumGroup r = default G (groups m !! G ≫= octeliumGroup)).
  { unfold resolveGroup, getProperty in Hres.
    cbn [loader_mapping new_MappingLoader] in Hres.
    destruct (groups m !! G) as [entry|] eqn:Hentry; cbn [mbind option_bind].
    - destruct (isFalse (sync entry)); [discriminate|].
      injection Hres as <-. cbn.
      destruct (octeliumGroup entry); reflexivity.
    - destruct (bool_decide (G ∈ objectPrototypeKeys)).
      + cbn in Hres. injection Hres as <-. reflexivity.
      + repeat match type of Hres with
               | (if ?b then _ else _) = _ => destruct b
               end; try discriminate; injection Hres as <-; reflexivity. }
  split; [exact Htarget|].
  intros HG Hgiven. rewrite Htarget.
  destruct (groups m !! G ≫= octeliumGroup) as [t|]; cbn.
  - intros ->. now apply Hgiven.
  - exact HG.
Qed.

Lemma resolveGroup_target_name_witness :
  resolved_octeliumGroup
    {| resolved_octeliumGroup := "administrators";
       resolved_displayName := "admins";
       resolved_policies := ["admin-policy"];
       resolved_sync := true |} ≠ EmptyString.
Proof.
  refine (proj2 (resolveGroup_target_name scenarioMapping "admins" _ _) _ _).
  - reflexivity.
  - discriminate.
  - vm_compute. discriminate.
Defined.

(** C10. The resolution of a group name depends on the mapping only through
    the name's own entry (or its absence) and the defaults block: two
    mappings that agree on both resolve the name to equal results. *)
Theorem resolveGroup_depends_on_own_entry (m1 m2 : GroupMapping) (G : string) :
  groups m1 !! G = groups m2 !! G ->
  defaults m1 = defaults m2 ->
  resolveGroup (new_MappingLoader m1) G = resolveGroup (new_MappingLoader m2) G.
Proof.
  intros Hentry Hdefaults.
  assert (Hread : getProperty (groups m1) G = getProperty (groups m2) G).
  { unfold getProperty. rewrite Hentry. reflexivity. }
  assert (Hloader : loader_defaults (new_MappingLoader m1)
                    = loader_defaults (new_MappingLoader m2)).
  { unfold new_MappingLoader. cbn [loader_defaults]. rewrite Hdefaults.
    reflexivity. }
  unfold resolveGroup. rewrite Hloader.
  cbn [loader_mapping new_MappingLoader]. rewrite Hread.
  destruct (getProperty (groups m2) G) as [entry|]; reflexivity.
Qed.

Lemma resolveGroup_depends_on_own_entry_witness :
  resolveGroup (new_MappingLoader scenarioMapping) "guests"
  = resolveGroup
      (new_MappingLoader
         {| groups := <["staff" := disabledEntry]> (delete "admins" (groups scenarioMapping));
            defaults := defaults scenarioMapping |})
      "guests".
Proof.
  apply (resolveGroup_depends_on_own_entry scenarioMapping).
  - vm_compute. reflexivity.
  - reflexivity.
Defined.

(** Adding or changing the entry of another name leaves the resolution of
    [G] alone. *)
Lemma resolveGroup_insert_other (m : GroupMapping) (G G' : string)
    (entry : GroupMappingEntry) :
  G' ≠ G ->
  resolveGroup
    (new_MappingLoader {| groups := <[G' := entry]> (groups m);
                          defaults := defaults m |}) G
  = resolveGroup (new_MappingLoader m) G.
Proof.
  intros Hne. apply resolveGroup_reads; [|reflexivity].
  apply getProperty_local. cbn. now rewrite lookup_insert_ne.
Qed.

(** Removing the entry of another name leaves the resolution of [G] alone. *)
Lemma resolveGroup_delete_other (m : GroupMapping) (G G' : string) :
  G' ≠ G ->
  resolveGroup
    (new_MappingLoader {| groups := delete G' (groups m);
                          defaults := defaults m |}) G
  = resolveGroup (new_MappingLoader m) G.
Proof.
  intros Hne. apply resolveGroup_reads; [|reflexivity].
  apply getProperty_local. cbn. now rewrite lookup_delete_ne.
Qed.

(** ** The exclude filter *)

(** The loop of [shouldExcludeUser] is a disjunction over the patterns. *)
Lemma shouldExcludeUser_existsb (minimatch : string -> string -> bool)
    (username : string) (patterns : list string) :
  shouldExcludeUser minimatch username patterns
  = existsb (minimatch username) patterns.
Proof.
  induction patterns as [|p rest IH]; cbn; [reflexivity|].
  rewrite IH. now destruct (minimatch username p).
Qed.



(** The order of the patterns does not change the answer. *)
Lemma shouldExcludeUser_permutation (minimatch : string -> string -> bool)
    (u : string) (P Q : list string) :
  P ≡ₚ Q -> shouldExcludeUser minimatch u P = shouldExcludeUser minimatch u Q.
Proof.
  intros Hperm. rewrite !shouldExcludeUser_existsb.
  induction Hperm as [|x l l' _ IH|x y l|l l' l'' _ IH1 _ IH2]; cbn.
  - reflexivity.
  - now rewrite IH.
  - now destruct (minimatch u x), (minimatch u y).
  - now rewrite IH1.
Qed.

Example shouldExcludeUser_svc_batch :
  shouldExcludeUser wildcardMatch "svc-batch" ["svc-*"] = true.
Proof. reflexivity. Qed.

Example shouldExcludeUser_svc :
  shouldExcludeUser wildcardMatch "svc" ["svc-*"] = false.
Proof. reflexivity. Qed.

(** ** Splitting and trimming the exclude option *)

Lemma split_nonempty (separator : ascii) (s : string) :
  split separator s ≠ [].
Proof.
  destruct s as [|c rest]; cbn; [discriminate|].
  destruct (Ascii.eqb c separator); [discriminate|].
  destruct (split separator rest); discriminate.
Qed.

Lemma join_cons (separator : ascii) (a b : string) (rest : list string) :
  join separator (a :: b :: rest)
  = a +:+ String separator (join separator (b :: rest)).
Proof. reflexivity. Qed.

(** Joining the segments with the separator gives the string back. *)
Lemma join_split (separator : ascii) (s : string) :
  join separator (split separator s) = s.
Proof.
  induction s as [|c rest IH]; [reflexivity|]. cbn [split].
  pose proof (split_nonempty separator rest) as Hnil.
  destruct (split separator rest) as [|seg segs]; [contradiction|].
  destruct (Ascii.eqb_spec c separator) as [->|Hne].
  - rewrite join_cons, IH. reflexivity.
  - destruct segs as [|seg' segs'].
    + cbn in *. now rewrite IH.
    + rewrite join_cons in *.
      change (String c (seg +:+ String separator (join separator (seg' :: segs')))
              = String c rest).
      now rewrite IH.
Qed.

(** No segment holds the separator. *)
Lemma split_no_separator (separator : ascii) (s : string) :
  Forall (fun segment => contains separator segment = false)
         (split separator s).
Proof.
  induction s as [|c rest IH]; cbn [split].
  - now constructor.
  - destruct (Ascii.eqb_spec c separator) as [->|Hne].
    + now constructor.
    + destruct (split separator rest) as [|seg segs].
      * constructor; [|constructor]. cbn.
        destruct (Ascii.eqb_spec c separator); [contradiction|reflexivity].
      * inversion IH as [|? ? Hseg Hsegs]; subst.
        constructor; [|assumption]. cbn.
        destruct (Ascii.eqb_spec c separator); [contradiction|assumption].
Qed.

Lemma excludePatterns_effective (excludeUsers : string) :
  excludePatterns excludeUsers
  = omap effectivePattern (split "," excludeUsers).
Proof.
  unfold excludePatterns.
  induction (split "," excludeUsers) as [|seg segs IH]; [reflexivity|].
  cbn [map List.filter]. rewrite IH.
  change (omap effectivePattern (seg :: segs))
    with (match effectivePattern seg with
          | Some pattern => pattern :: omap effectivePattern segs
          | None => omap effectivePattern segs
          end).
  assert (Hseg : effectivePattern seg
                 = match trim seg with
                   | EmptyString => None
                   | pattern => Some pattern
                   end) by reflexivity.
  rewrite Hseg. destruct (trim seg); reflexivity.
Qed.

Example excludePatterns_example :
  excludePatterns " svc-* ,, admin ,	" = ["svc-*"; "admin"].
Proof. reflexivity. Qed.

Example excludePatterns_default :
  excludePatterns EmptyString = [].
Proof. reflexivity. Qed.

(** ** Filtering the fetched users *)

Lemma keepUser_outcome (minimatch : string -> string -> bool)
    (patterns : list string) (user : UserWithGroups) :
  outcome (keepUser minimatch patterns user)
  = Return (kept minimatch patterns user).
Proof.
  unfold keepUser, kept. rewrite shouldExcludeUser_existsb.
  destruct (user_enabled (uwg_user user)); cbn; [|reflexivity].
  destruct (existsb _ patterns); reflexivity.
Qed.

(** A filter whose callback never throws returns the elements the callback
    keeps, in order. *)
Lemma filter_io_outcome {A : Type} (callback : A -> IO bool)
    (decision : A -> bool) (xs : list A) :
  (forall x, outcome (callback x) = Return (decision x)) ->
  outcome (filter_io callback xs) = Return (List.filter decision xs).
Proof.
  intros Hcallback. induction xs as [|x rest IH]; [reflexivity|].
  cbn [filter_io List.filter]. specialize (Hcallback x).
  destruct (callback x) as [evs [keep|e]]; cbn in Hcallback; [|discriminate].
  injection Hcallback as ->.
  destruct (filter_io callback rest) as [evs' [keptRest|e]]; cbn in IH;
    [|discriminate].
  injection IH as ->. cbn. now destruct (decision x).
Qed.

Lemma trimStart_start (s : string) : startsWithWhiteSpace (trimStart s) = false.
Proof.
  induction s as [|c rest IH]; [reflexivity|]. cbn [trimStart].
  destruct (isWhiteSpace c) eqn:Hc; [exact IH|]. cbn. exact Hc.
Qed.

Lemma trimEnd_start (s : string) :
  startsWithWhiteSpace s = false -> startsWithWhiteSpace (trimEnd s) = false.
Proof.
  destruct s as [|c rest]; [reflexivity|]. cbn [startsWithWhiteSpace trimEnd].
  intros Hc. destruct (trimEnd rest); [rewrite Hc|]; cbn; exact Hc.
Qed.

Lemma trimEnd_end (s : string) : endsWithWhiteSpace (trimEnd s) = false.
Proof.
  induction s as [|c rest IH]; [reflexivity|]. cbn [trimEnd].
  destruct (trimEnd rest) as [|a kept].
  - destruct (isWhiteSpace c) eqn:Hc; [reflexivity|]. cbn. exact Hc.
  - exact IH.
Qed.

Lemma trimStart_contains (c : ascii) (s : string) :
  contains c s = false -> contains c (trimStart s) = false.
Proof.
  induction s as [|a rest IH]; [reflexivity|]. cbn [trimStart].
  intros Hs. destruct (isWhiteSpace a); [|exact Hs].
  apply IH. cbn in Hs. now apply orb_false_iff in Hs as [_ ?].
Qed.

Lemma trimEnd_contains (c : ascii) (s : string) :
  contains c s = false -> contains c (trimEnd s) = false.
Proof.
  induction s as [|a rest IH]; [reflexivity|]. cbn [trimEnd contains].
  intros Hs. apply orb_false_iff in Hs as [Ha Hrest].
  specialize (IH Hrest).
  destruct (trimEnd rest) as [|b kept].
  - destruct (isWhiteSpace a); [reflexivity|]. cbn. now rewrite Ha.
  - cbn [contains]. rewrite Ha. exact IH.
Qed.

Lemma trimStart_allChars (s : string) :
  allChars isWhiteSpace s = true -> trimStart s = EmptyString.
Proof.
  induction s as [|c rest IH]; [reflexivity|]. cbn.
  intros Hs. apply andb_true_iff in Hs as [Hc Hrest]. rewrite Hc. now apply IH.
Qed.

(** What [trim] strips at the front is white space. *)
Lemma trimStart_decompose (s : string) :
  exists leading, s = leading +:+ trimStart s
                  /\ allChars isWhiteSpace leading = true.
Proof.
  induction s as [|c rest (leading & Hrest & Hleading)].
  - now exists EmptyString.
  - cbn [trimStart]. destruct (isWhiteSpace c) eqn:Hc.
    + exists (String c leading). split.
      * rewrite Hrest at 1. reflexivity.
      * cbn [allChars]. now rewrite Hc, Hleading.
    + now exists EmptyString.
Qed.

(** What [trim] strips at the back is white space. *)
Lemma trimEnd_decompose (s : string) :
  exists trailing, s = trimEnd s +:+ trailing
                   /\ allChars isWhiteSpace trailing = true.
Proof.
  induction s as [|c rest (trailing & Hrest & Htrailing)].
  - now exists EmptyString.
  - cbn [trimEnd]. destruct (trimEnd rest) as [|a kept].
    + change (EmptyString +:+ trailing) with trailing in Hrest.
      destruct (isWhiteSpace c) eqn:Hc.
      * exists (String c trailing). split.
        -- now rewrite Hrest.
        -- cbn [allChars]. now rewrite Hc, Htrailing.
      * exists trailing. split; [|assumption].
        rewrite Hrest at 1. reflexivity.
    + exists trailing. split; [|assumption].
      rewrite Hrest at 1. reflexivity.
Qed.

(** [trim] gives the string without the white space at its two ends. *)
Lemma trim_isTrimOf (s : string) : isTrimOf s (trim s).
Proof.
  unfold isTrimOf, trim.
  destruct (trimStart_decompose s) as (leading & Hs & Hleading).
  destruct (trimEnd_decompose (trimStart s)) as (trailing & Hmid & Htrailing).
  exists leading, trailing. repeat split; try assumption.
  - now rewrite <- Hmid.
  - apply trimEnd_start, trimStart_start.
  - apply trimEnd_end.
Qed.

Lemma append_cons (c : ascii) (a b : string) :
  String c a +:+ b = String c (a +:+ b).
Proof. reflexivity. Qed.

Lemma append_empty (b : string) : EmptyString +:+ b = b.
Proof. reflexivity. Qed.

Lemma trimStart_append (leading rest : string) :
  allChars isWhiteSpace leading = true ->
  trimStart (leading +:+ rest) = trimStart rest.
Proof.
  induction leading as [|c leading IH]; [reflexivity|].
  rewrite append_cons. cbn [allChars trimStart]. intros Hc.
  apply andb_true_iff in Hc as [-> Hleading]. now apply IH.
Qed.

Lemma trimStart_fixed (s : string) :
  startsWithWhiteSpace s = false -> trimStart s = s.
Proof. destruct s as [|c rest]; cbn; [reflexivity|]. now intros ->. Qed.

Lemma trimEnd_white (trailing : string) :
  allChars isWhiteSpace trailing = true -> trimEnd trailing = EmptyString.
Proof.
  induction trailing as [|c trailing IH]; [reflexivity|].
  cbn [allChars trimEnd]. intros Hc.
  apply andb_true_iff in Hc as [Hc Htrailing]. now rewrite IH, Hc.
Qed.

Lemma trimEnd_append (s trailing : string) :
  allChars isWhiteSpace trailing = true ->
  trimEnd (s +:+ trailing) = trimEnd s.
Proof.
  intros Htrailing. induction s as [|c s IH].
  - rewrite append_empty. now rewrite trimEnd_white.
  - rewrite append_cons. cbn [trimEnd]. now rewrite IH.
Qed.

Lemma trimEnd_fixed (s : string) :
  endsWithWhiteSpace s = false -> trimEnd s = s.
Proof.
  induction s as [|c s IH]; [reflexivity|].
  cbn [endsWithWhiteSpace trimEnd]. destruct s as [|a s].
  - cbn. now intros ->.
  - intros Hend. now rewrite IH.
Qed.

(** Nothing else than [trim s] is [s] without its white space at the ends. *)
Lemma isTrimOf_unique (s trimmed : string) :
  isTrimOf s trimmed -> trimmed = trim s.
Proof.
  intros (leading & trailing & -> & Hleading & Htrailing & Hstart & Hend).
  unfold trim. rewrite trimStart_append by assumption.
  destruct trimmed as [|c rest].
  - rewrite append_empty.
    assert (Hnone : trimStart trailing = EmptyString)
      by now apply trimStart_allChars.
    now rewrite Hnone.
  - rewrite trimStart_fixed by exact Hstart.
    rewrite trimEnd_append by assumption.
    symmetry. now apply trimEnd_fixed.
Qed.

Lemma isWhiteSpace_codes (c : ascii) :
  isWhiteSpace c = bool_decide (nat_of_ascii c ∈ whiteSpaceCodes).
Proof. destruct c as [[] [] [] [] [] [] [] []]; vm_compute; reflexivity. Qed.

(** C7. The effective patterns are the segments of the option string between
    its commas, each trimmed, the empty ones dropped: the segments joined by
    commas give the string back and hold no comma; trimming a segment takes
    the white space off its two ends and nothing else (white space being
    tab, line feed, vertical tab, form feed, carriage return, space and
    no-break space); and a string is an effective pattern exactly when it is
    non-empty and is some segment so trimmed. The filter of [runSync] never
    throws, and a fetched user is among the filtered users exactly when it
    is enabled and no effective pattern matches its user name; a disabled
    user is never among them, whatever the patterns. *)
Theorem runSync_filtered_users (minimatch : string -> string -> bool)
    (usersWithGroups : list UserWithGroups) (excludeUsers : string) :
  let patterns := excludePatterns excludeUsers in
  patterns = omap effectivePattern (split "," excludeUsers) /\
  join "," (split "," excludeUsers) = excludeUsers /\
  Forall (fun segment => contains "," segment = false)
         (split "," excludeUsers) /\
  (forall segment, isTrimOf segment (trim segment)) /\
  (forall c, isWhiteSpace c = bool_decide (nat_of_ascii c ∈ whiteSpaceCodes)) /\
  (forall pattern,
     pattern ∈ patterns
     <-> pattern ≠ EmptyString
         /\ exists segment, segment ∈ split "," excludeUsers
                            /\ isTrimOf segment pattern) /\
  exists filteredUsers : list UserWithGroups,
    outcome (filter_io (keepUser minimatch patterns) usersWithGroups)
      = Return filteredUsers /\
    filteredUsers = List.filter (kept minimatch patterns) usersWithGroups /\
    (forall user,
       user ∈ filteredUsers
       <-> user ∈ usersWithGroups
           /\ user_enabled (uwg_user user) = true
           /\ forall p, p ∈ patterns ->
                minimatch (user_username (uwg_user user)) p = false) /\
    (forall user,
       user_enabled (uwg_user user) = false -> user ∉ filteredUsers).
Proof.
  intros patterns.
  split; [apply excludePatterns_effective|].
  split; [apply join_split|].
  split; [apply split_no_separator|].
  split; [apply trim_isTrimOf|].
  split; [apply isWhiteSpace_codes|].
  split.
  { intros pattern. unfold patterns, excludePatterns.
    rewrite list_elem_of_In, filter_In, in_map_iff. split.
    - intros [(segment & <- & Hsegment) Hlength]. split.
      + intros Hempty. rewrite Hempty in Hlength. discriminate.
      + exists segment. split; [now apply list_elem_of_In|apply trim_isTrimOf].
    - intros (Hnonempty & segment & Hsegment & Htrim).
      apply isTrimOf_unique in Htrim. split.
      + exists segment. split; [now symmetry|now apply list_elem_of_In].
      + destruct pattern; [contradiction|reflexivity]. }
  exists (List.filter (kept minimatch patterns) usersWithGroups).
  split; [apply filter_io_outcome, keepUser_outcome|].
  split; [reflexivity|].
  assert (Hin : forall user,
    user ∈ List.filter (kept minimatch patterns) usersWithGroups
    <-> user ∈ usersWithGroups /\ kept minimatch patterns user = true).
  { intros user. rewrite !list_elem_of_In. apply filter_In. }
  split.
  - intros user. rewrite Hin. unfold kept.
    rewrite andb_true_iff, negb_true_iff.
    split.
    + intros (Huser & Henabled & Hnone). repeat split; try assumption.
      intros p Hp. apply list_elem_of_In in Hp.
      destruct (minimatch (user_username (uwg_user user)) p) eqn:Hmatch;
        [|reflexivity].
      assert (existsb (minimatch (user_username (uwg_user user))) patterns
              = true) as Hsome
        by (apply existsb_exists; exists p; now split).
      congruence.
    + intros (Huser & Henabled & Hnone). repeat split; try assumption.
      apply not_true_is_false. intros Hsome.
      apply existsb_exists in Hsome as (p & Hp & Hmatch).
      apply list_elem_of_In in Hp. specialize (Hnone p Hp). congruence.
  - intros user Hdisabled Huser. apply Hin in Huser as [_ Hkept].
    unfold kept in Hkept. rewrite Hdisabled in Hkept. discriminate.
Qed.

Lemma runSync_filtered_users_witness :
  exists filteredUsers : list UserWithGroups,
    outcome (filter_io (keepUser wildcardMatch (excludePatterns "svc-*"))
                       [alice; bob; svcBatch])
      = Return filteredUsers /\
    bob ∉ filteredUsers.
Proof.
  destruct (runSync_filtered_users wildcardMatch [alice; bob; svcBatch] "svc-*")
    as (_ & _ & _ & _ & _ & _ & filteredUsers & Houtcome & _ & _ & Hdisabled).
  exists filteredUsers. split.
  - exact Houtcome.
  - apply Hdisabled. reflexivity.
Defined.

Example filter_sample_users :
  outcome (filter_io (keepUser wildcardMatch (excludePatterns "svc-*, bob"))
                     [alice; bob; svcBatch; svc])
  = Return [alice; svc].
Proof. reflexivity. Qed.

(** ** The matcher and the glob of the specification *)

Example posixGlob_samples :
  posixGlob "svc-batch" "svc-*" = true
  /\ posixGlob "svc" "svc-*" = false
  /\ posixGlob "svc1" "svc?" = true
  /\ posixGlob "svc1" "svc[0-9]" = true
  /\ posixGlob "svcx" "svc[!0-9]" = true
  /\ posixGlob "svc1" "svc[!0-9]" = false
  /\ posixGlob "a]" "a[]]" = true
  /\ posixGlob "a[" "a[" = true
  /\ posixGlob "alice" "!svc-*" = false.
Proof. repeat split; reflexivity. Qed.

Example minimatchDocumented_samples :
  minimatchDocumented "svc-batch" "svc-*" = true
  /\ minimatchDocumented "svc" "svc-*" = false
  /\ minimatchDocumented "alice" "!svc-*" = true
  /\ minimatchDocumented "svc-batch" "!svc-*" = false
  /\ minimatchDocumented "alice" "!!alice" = true
  /\ minimatchDocumented "alice" "#alice" = false
  /\ minimatchDocumented ".hidden" "*" = false
  /\ minimatchDocumented ".hidden" ".h*" = true.
Proof. repeat split; reflexivity. Qed.

(** On a pattern that starts neither with [!] nor with [#], and a name that
    does not start with a dot, the documented matcher is the glob of the
    specification. *)
Lemma minimatchDocumented_plain (name pattern : string) (first : ascii)
    (rest : string) :
  pattern = String first rest ->
  Ascii.eqb first "!" = false ->
  Ascii.eqb first "#" = false ->
  startsWithDot name = false ->
  minimatchDocumented name pattern = posixGlob name pattern.
Proof.
  intros -> Hbang Hhash Hdot. unfold minimatchDocumented, posixGlob.
  rewrite Hhash. cbn [list_ascii_of_string parseNegate]. rewrite Hbang.
  destruct name as [|n name]; [reflexivity|].
  cbn in Hdot. rewrite Hdot. reflexivity.
Qed.


(** ** Loading the mapping *)

Section Loading.

Variable minimatch : string -> string -> bool.
Variable parseYaml : string -> Outcome ParsedMapping.
Variable bun_file_text : string -> Outcome string.
Variable bun_write : string -> Document -> Outcome unit.
Variable new_KcAdminClient : string -> string -> KcAdminClient.

(** Once the file is read and parsed, [fromFile] is decided by the
    [groups] key alone and prints nothing. *)
Lemma fromFile_parsed (filePath content : string) (doc : ParsedMapping) :
  bun_file_text filePath = Return content ->
  parseYaml content = Return doc ->
  fromFile parseYaml bun_file_text filePath =
    match parsed_groups doc with
    | None =>
        ([], Throw (new_Error "Invalid mapping file: missing 'groups' key"))
    | Some table =>
        ([], Return (new_MappingLoader
                       {| groups := table;
                          defaults := parsed_defaults doc |}))
    end.
Proof.
  intros Hread Hparse. unfold fromFile, await, bind.
  rewrite Hread, Hparse. now destruct (parsed_groups doc).
Qed.

Lemma required_given (value : option string) (message : string) :
  given value = true -> exists s, value = Some s /\ required value message = ret s.
Proof.
  destruct value as [[|c s]|]; cbn; try discriminate.
  intros _. now exists (String c s).
Qed.

(** C8. When the mapping file is read and parsed, loading fails exactly
    when the parsed document has no groups table, with the error that
    names the missing key; a document with a groups table, even an empty
    one, gives a loader over that table. The error ends the run at the
    load step: [runSync] has printed its first two lines and stops there,
    so no provider is contacted, no group is resolved and nothing is
    written. *)
Theorem fromFile_fails_iff_groups_missing (options : SyncOptions)
    (filePath content : string) (doc : ParsedMapping) :
  bun_file_text filePath = Return content ->
  parseYaml content = Return doc ->
  ((exists e, outcome (fromFile parseYaml bun_file_text filePath) = Throw e)
   <-> parsed_groups doc = None) /\
  (parsed_groups doc = None ->
   outcome (fromFile parseYaml bun_file_text filePath)
   = Throw (new_Error "Invalid mapping file: missing 'groups' key")) /\
  (forall table, parsed_groups doc = Some table ->
   outcome (fromFile parseYaml bun_file_text filePath)
   = Return (new_MappingLoader {| groups := table;
                                  defaults := parsed_defaults doc |})) /\
  (optionsAccepted options = true ->
   opt_mapping options = filePath ->
   parsed_groups doc = None ->
   runSync minimatch parseYaml bun_file_text bun_write new_KcAdminClient
           options
   = ([ ConsoleLog ("Starting sync..." +:+ nl);
        ConsoleLog ("Loading mapping from: " +:+ filePath) ],
      Throw (new_Error "Invalid mapping file: missing 'groups' key"))).
Proof.
  intros Hread Hparse.
  pose proof (fromFile_parsed filePath content doc Hread Hparse) as Hload.
  repeat split.
  - intros [e He]. rewrite Hload in He.
    destruct (parsed_groups doc); [discriminate|reflexivity].
  - intros Hnone. rewrite Hload, Hnone. eexists. reflexivity.
  - intros Hnone. now rewrite Hload, Hnone.
  - intros table Hsome. now rewrite Hload, Hsome.
  - intros Haccepted Hpath Hnone. unfold optionsAccepted in Haccepted.
    repeat (apply andb_true_iff in Haccepted as [Haccepted ?]).
    unfold runSync. rewrite Haccepted. cbn [negb].
    destruct (required_given (opt_keycloakUrl options)
                "--keycloak-url is required") as (url & _ & ->);
      [assumption|].
    destruct (required_given (opt_keycloakRealm options)
                "--keycloak-realm is required") as (realm & _ & ->);
      [assumption|].
    destruct (required_given (opt_keycloakClientId options)
                "--keycloak-client-id is required") as (clientId & _ & ->);
      [assumption|].
    destruct (required_given (opt_keycloakClientSecret options)
      "--keycloak-client-secret is required (or set KEYCLOAK_CLIENT_SECRET env)")
      as (clientSecret & _ & ->); [assumption|].
    rewrite Hpath, Hload, Hnone. reflexivity.
Qed.

End Loading.

Lemma fromFile_fails_iff_groups_missing_witness :
  runSync wildcardMatch sampleParse sampleFiles (fun _ _ => Return tt)
          (fun _ _ => sampleClient) sampleOptions
  = ([ ConsoleLog ("Starting sync..." +:+ nl);
       ConsoleLog "Loading mapping from: group-mapping.yaml" ],
     Throw (new_Error "Invalid mapping file: missing 'groups' key")).
Proof.
  refine (proj2 (proj2 (proj2
    (fromFile_fails_iff_groups_missing wildcardMatch sampleParse sampleFiles
       (fun _ _ => Return tt) (fun _ _ => sampleClient) sampleOptions
       "group-mapping.yaml" "defaults: {}"
       {| parsed_groups := None;
          parsed_defaults := Some {| unmappedGroups := None;
                                     defaultPolicies := None |} |}
       _ _))) _ _ _); reflexivity.
Defined.

Example fromFile_empty_table :
  outcome (fromFile sampleParse sampleFiles "empty-table.yaml")
  = Return (new_MappingLoader {| groups := ∅; defaults := None |}).
Proof. reflexivity. Qed.

(** ** The users-with-groups lookup *)

Lemma bind_return {A B : Type} (m : IO A) (k : A -> IO B) (a : A) :
  outcome m = Return a ->
  bind m k = (events m ++ events (k a), outcome (k a)).
Proof.
  destruct m as [evs [a'|e]]; cbn; [|discriminate].
  intros [= ->]. now destruct (k a).
Qed.

(** A turn of the member loop never throws: it ends with the map that
    [membersStep] computes. *)
Lemma fetchMembers_outcome (this : KeycloakProvider)
    (userGroupsMap : gmap string (list string)) (group : Group) :
  outcome (fetchMembers this userGroupsMap group)
  = Return (membersStep (kc_client this) userGroupsMap group).
Proof.
  unfold fetchMembers, membersStep.
  now destruct (client_groups_listMembers (kc_client this) (group_id group) _).
Qed.

(** A failed listing prints the warning and nothing else. *)
Lemma fetchMembers_events_failed (this : KeycloakProvider)
    (userGroupsMap : gmap string (list string)) (group : Group)
    (error : JsError) :
  client_groups_listMembers (kc_client this) (group_id group) 10000%N
    = Throw error ->
  events (fetchMembers this userGroupsMap group) = [memberWarning group error].
Proof. intros Hfail. unfold fetchMembers. now rewrite Hfail. Qed.

(** A loop whose body never throws ends with the fold of its steps. *)
Lemma for_of_outcome {A S : Type} (body : S -> A -> IO S) (step : S -> A -> S)
    (xs : list A) (s : S) :
  (forall s x, outcome (body s x) = Return (step s x)) ->
  outcome (for_of xs body s) = Return (fold_left step xs s).
Proof.
  intros Hbody. revert s. induction xs as [|x rest IH]; intros s; cbn [for_of fold_left].
  - reflexivity.
  - rewrite (bind_return _ _ _ (Hbody s x)). cbn. apply IH.
Qed.

(** The events of a loop whose body never throws: those of the turns before
    an element, then those of its turn, then the rest. *)
Lemma for_of_events_app {A S : Type} (body : S -> A -> IO S)
    (step : S -> A -> S) (before after : list A) (x : A) (s : S) :
  (forall s x, outcome (body s x) = Return (step s x)) ->
  exists evsBefore evsAfter,
    events (for_of (before ++ x :: after) body s)
    = evsBefore ++ events (body (fold_left step before s) x) ++ evsAfter.
Proof.
  intros Hbody. revert s. induction before as [|y before IH]; intros s.
  - cbn [app for_of fold_left].
    rewrite (bind_return _ _ _ (Hbody s x)). cbn.
    now exists [], (events (for_of after body (step s x))).
  - cbn [app for_of fold_left].
    rewrite (bind_return _ _ _ (Hbody s y)). cbn.
    destruct (IH (step s y)) as (evsBefore & evsAfter & ->).
    exists (events (body s y) ++ evsBefore), evsAfter.
    now rewrite <- app_assoc.
Qed.

(** A listing that fails and a listing that is empty leave the same map. *)
Lemma membersStep_withNoMembers (client : KcAdminClient) (groupId : string)
    (error : JsError) (userGroupsMap : gmap string (list string))
    (group : Group) :
  client_groups_listMembers client groupId 10000%N = Throw error ->
  membersStep (withNoMembers client groupId) userGroupsMap group
  = membersStep client userGroupsMap group.
Proof.
  intros Hfail. unfold membersStep, withNoMembers. cbn.
  destruct (String.eqb_spec (group_id group) groupId) as [->|Hne].
  - now rewrite Hfail.
  - reflexivity.
Qed.

Lemma fold_membersStep_withNoMembers (client : KcAdminClient)
    (groupId : string) (error : JsError) (groups : list Group)
    (userGroupsMap : gmap string (list string)) :
  client_groups_listMembers client groupId 10000%N = Throw error ->
  fold_left (membersStep (withNoMembers client groupId)) groups userGroupsMap
  = fold_left (membersStep client) groups userGroupsMap.
Proof.
  intros Hfail. revert userGroupsMap.
  induction groups as [|g rest IH]; intros m; cbn [fold_left].
  - reflexivity.
  - rewrite (membersStep_withNoMembers _ _ error m g Hfail). apply IH.
Qed.

(** With a session and both listings answered, [getUsersWithGroups] is its
    log line followed by the member loop. *)
Lemma getUsersWithGroups_connected (this : KeycloakProvider)
    (users : list UserRepresentation) (groupReps : list GroupRepresentation) :
  kc_connected this = true ->
  client_users_find (kc_client this) 10000%N = Return users ->
  client_groups_find (kc_client this) 10000%N = Return groupReps ->
  let groups := flattenGroups groupReps [] in
  let initial : gmap string (list string) :=
    fold_left (fun m user => <[user_id user := []]> m) (map toUser users) ∅ in
  let loop := for_of groups (fetchMembers this) initial in
  getUsersWithGroups this =
    (ConsoleLog ("  Fetching members for " +:+ pretty (length groups)
                 +:+ " groups...") :: events loop,
     match outcome loop with
     | Return userGroupsMap =>
         Return (map (fun user =>
                        {| uwg_user := user;
                           uwg_groups :=
                             (userGroupsMap !! user_id user) ?? [] |})
                     (map toUser users))
     | Throw e => Throw e
     end).
Proof.
  intros Hconnected Husers Hgroups groups initial loop.
  unfold getUsersWithGroups, getUsers, getGroups, ensureConnected.
  rewrite Hconnected, Husers, Hgroups. cbn.
  fold groups. fold initial. fold loop.
  destruct loop as [evs [m|e]]; cbn; [|reflexivity].
  now rewrite app_nil_r.
Qed.

(** C9. In the users-with-groups lookup, when the member listing of one
    group fails, the warning for that group is printed, the group's turn
    leaves the memberships as they were, and the lookup goes on to return a
    result: the very result it returns when that listing succeeds with no
    members, with one record for every fetched user, in order. *)
Theorem getUsersWithGroups_tolerates_failed_listing (this : KeycloakProvider)
    (users : list UserRepresentation) (groupReps : list GroupRepresentation)
    (group : Group) (error : JsError) :
  kc_connected this = true ->
  client_users_find (kc_client this) 10000%N = Return users ->
  client_groups_find (kc_client this) 10000%N = Return groupReps ->
  group ∈ flattenGroups groupReps [] ->
  client_groups_listMembers (kc_client this) (group_id group) 10000%N
    = Throw error ->
  exists result : list UserWithGroups,
    outcome (getUsersWithGroups this) = Return result /\
    memberWarning group error ∈ events (getUsersWithGroups this) /\
    (forall userGroupsMap,
       outcome (fetchMembers this userGroupsMap group) = Return userGroupsMap) /\
    outcome (getUsersWithGroups
               (withClient this (withNoMembers (kc_client this) (group_id group))))
      = Return result /\
    map uwg_user result = map toUser users.
Proof.
  intros Hconnected Husers Hgroups Hgroup Hfail.
  set (that := withClient this (withNoMembers (kc_client this) (group_id group))).
  pose proof (getUsersWithGroups_connected this users groupReps
                Hconnected Husers Hgroups) as Hthis.
  pose proof (getUsersWithGroups_connected that users groupReps
                Hconnected Husers Hgroups) as Hthat.
  cbv zeta in Hthis, Hthat.
  set (groups := flattenGroups groupReps []) in *.
  set (initial := fold_left (fun m user => <[user_id user := []]> m)
                            (map toUser users) (∅ : gmap string (list string)))
    in *.
  pose proof (for_of_outcome (fetchMembers this) (membersStep (kc_client this))
                groups initial (fetchMembers_outcome this)) as Hloop.
  pose proof (for_of_outcome (fetchMembers that) (membersStep (kc_client that))
                groups initial (fetchMembers_outcome that)) as Hloop'.
  assert (Hsame : fold_left (membersStep (kc_client that)) groups initial
                  = fold_left (membersStep (kc_client this)) groups initial).
  { exact (fold_membersStep_withNoMembers _ _ error groups initial Hfail). }
  rewrite Hloop in Hthis. rewrite Hloop', Hsame in Hthat.
  eexists. split; [rewrite Hthis; reflexivity|].
  split; [|split; [|split]].
  - rewrite Hthis. cbn [events fst].
    apply list_elem_of_split in Hgroup as (before & after & Hsplit).
    destruct (for_of_events_app (fetchMembers this)
                (membersStep (kc_client this)) before after group initial
                (fetchMembers_outcome this)) as (evsBefore & evsAfter & Hevs).
    rewrite Hsplit, Hevs.
    rewrite (fetchMembers_events_failed this _ group error Hfail).
    set_solver.
  - intros m. rewrite fetchMembers_outcome. unfold membersStep.
    now rewrite Hfail.
  - rewrite Hthat. reflexivity.
  - rewrite map_map. cbn. now rewrite map_id.
Qed.

Lemma getUsersWithGroups_tolerates_failed_listing_witness :
  exists result : list UserWithGroups,
    outcome (getUsersWithGroups sampleProvider) = Return result /\
    memberWarning guestsGroup networkError
      ∈ events (getUsersWithGroups sampleProvider) /\
    (forall userGroupsMap,
       outcome (fetchMembers sampleProvider userGroupsMap guestsGroup)
       = Return userGroupsMap) /\
    outcome (getUsersWithGroups
               (withClient sampleProvider (withNoMembers sampleClient "g2")))
      = Return result /\
    map uwg_user result = map toUser [aliceRep; bobRep].
Proof.
  apply (getUsersWithGroups_tolerates_failed_listing sampleProvider
           [aliceRep; bobRep]
           [ mkGroupRepresentation "g1" "admins" (Some "/admins")
               (Some [ mkGroupRepresentation "g3" "ops" (Some "/admins/ops")
                         None ]);
             mkGroupRepresentation "g2" "guests" None (Some []) ]
           guestsGroup networkError).
  - reflexivity.
  - reflexivity.
  - reflexivity.
  - apply list_elem_of_In. simpl. right. right. left. reflexivity.
  - reflexivity.
Defined.

Example getUsersWithGroups_sample :
  getUsersWithGroups sampleProvider =
    ([ ConsoleLog "  Fetching members for 3 groups...";
       ConsoleWarn
         "Warning: Could not get members for group guests: Error: Network response was not OK" ],
     Return [ {| uwg_user := toUser aliceRep; uwg_groups := ["admins"] |};
              {| uwg_user := toUser bobRep; uwg_groups := ["admins"; "ops"] |} ]).
Proof. vm_compute. reflexivity. Qed.

Example flattenGroups_sample :
  map group_name
      (flattenGroups
         [ mkGroupRepresentation "g1" "admins" None
             (Some [ mkGroupRepresentation "g3" "ops" None
                       (Some [ mkGroupRepresentation "g4" "oncall" None None ]);
                     mkGroupRepresentation "g5" "dba" None None ]);
           mkGroupRepresentation "g2" "guests" None (Some []) ] [])
  = ["admins"; "ops"; "oncall"; "dba"; "guests"].
Proof. reflexivity. Qed.

(** ** The rendered manifests *)

(** The groups document after the loop: what was there, then one entry for
    every raw group that resolves, in input order. *)
Lemma renderGroups_document (mappingLoader : MappingLoader)
    (groups : list Group)
    (acc : list OcteliumGroup * gmap string ResolvedGroupMapping) :
  (fold_left (renderGroupsStep mappingLoader) groups acc).1
  = acc.1 ++ omap (fun g => renderGroup
                              <$> resolveGroup mappingLoader (group_name g))
                  groups.
Proof.
  revert acc. induction groups as [|g rest IH]; intros acc; cbn [fold_left].
  - cbn. now rewrite app_nil_r.
  - rewrite IH. unfold renderGroupsStep. cbn [omap list_omap].
    destruct (resolveGroup mappingLoader (group_name g)) as [r|]; cbn.
    + now rewrite <- app_assoc.
    + reflexivity.
Qed.

(** The map after the loop: a raw name among the groups of the loop reads its
    resolution when it has one; any other name reads what was there. *)
Lemma renderGroups_map (mappingLoader : MappingLoader) (groups : list Group)
    (acc : list OcteliumGroup * gmap string ResolvedGroupMapping)
    (raw : string) :
  (fold_left (renderGroupsStep mappingLoader) groups acc).2 !! raw
  = if decide (raw ∈ map group_name groups) then
      match resolveGroup mappingLoader raw with
      | Some r => Some r
      | None => acc.2 !! raw
      end
    else acc.2 !! raw.
Proof.
  revert acc. induction groups as [|g rest IH]; intros acc; cbn [fold_left map].
  - rewrite decide_False by apply not_elem_of_nil. reflexivity.
  - rewrite IH. unfold renderGroupsStep.
    destruct (decide (raw = group_name g)) as [->|Hne].
    + rewrite (decide_True (P := group_name g ∈ group_name g :: _))
        by apply list_elem_of_here.
      destruct (resolveGroup mappingLoader (group_name g)) as [r|] eqn:Hres;
        cbn [snd].
      * rewrite lookup_insert_eq. now destruct (decide _).
      * now destruct (decide _).
    + destruct (decide (raw ∈ map group_name rest)) as [Hin|Hnin].
      * rewrite (decide_True (P := raw ∈ group_name g :: _))
          by now apply list_elem_of_further.
        destruct (resolveGroup mappingLoader raw) as [r|]; [reflexivity|].
        destruct (resolveGroup mappingLoader (group_name g)); cbn [snd];
          [now rewrite lookup_insert_ne|reflexivity].
      * rewrite (decide_False (P := raw ∈ group_name g :: _)).
        2:{ intros Hin. apply elem_of_cons in Hin as [?|?]; contradiction. }
        destruct (resolveGroup mappingLoader (group_name g)); cbn [snd];
          [now rewrite lookup_insert_ne|reflexivity].
Qed.

(** The map [generateGroupsYaml] returns, read at a raw name. *)
Lemma generateGroupsYaml_map (groups : list Group)
    (mappingLoader : MappingLoader) (options : GeneratorOptions)
    (raw : string) :
  (generateGroupsYaml groups mappingLoader options).2 !! raw
  = if decide (raw ∈ map group_name groups)
    then resolveGroup mappingLoader raw
    else None.
Proof.
  unfold generateGroupsYaml. cbn [snd]. rewrite renderGroups_map. cbn [snd].
  rewrite lookup_empty.
  destruct (decide _); [|reflexivity].
  now destruct (resolveGroup mappingLoader raw).
Qed.

(** The group names of the document [generateGroupsYaml] returns. *)
Lemma generateGroupsYaml_names (groups : list Group)
    (mappingLoader : MappingLoader) (options : GeneratorOptions) :
  documentGroupNames (generateGroupsYaml groups mappingLoader options).1
  = omap (fun g => resolved_octeliumGroup
                     <$> resolveGroup mappingLoader (group_name g)) groups.
Proof.
  unfold generateGroupsYaml. cbn [fst documentGroupNames].
  rewrite renderGroups_document. cbn [fst app].
  induction groups as [|g rest IH]; [reflexivity|].
  cbn [omap list_omap]. 
  destruct (resolveGroup mappingLoader (group_name g)) as [r|]; cbn.
  - f_equal. exact IH.
  - exact IH.
Qed.

(** Every translated name comes from a raw name of the user that the map
    holds. *)
Lemma elem_of_translateGroups
    (resolvedGroups : gmap string ResolvedGroupMapping)
    (rawGroupNames : list string) (name : string) :
  name ∈ translateGroups resolvedGroups rawGroupNames
  <-> exists raw r, raw ∈ rawGroupNames /\ resolvedGroups !! raw = Some r
                    /\ resolved_octeliumGroup r = name.
Proof.
  unfold translateGroups. rewrite list_elem_of_omap. split.
  - intros (raw & Hraw & Hname).
    destruct (resolvedGroups !! raw) as [r|] eqn:Hlook; [|discriminate].
    cbn in Hname. injection Hname as <-. now exists raw, r.
  - intros (raw & r & Hraw & Hlook & <-). exists raw. split; [assumption|].
    now rewrite Hlook.
Qed.

(** A raw name that the map of resolved groups does not hold is dropped by
    the translation, wherever it stands in the list. *)
Lemma translateGroups_filter
    (resolvedGroups : gmap string ResolvedGroupMapping)
    (keep : string -> bool) (rawGroupNames : list string) :
  (forall raw, keep raw = false -> resolvedGroups !! raw = None) ->
  translateGroups resolvedGroups (List.filter keep rawGroupNames)
  = translateGroups resolvedGroups rawGroupNames.
Proof.
  intros Hdropped. unfold translateGroups.
  induction rawGroupNames as [|raw rest IH]; [reflexivity|].
  cbn [List.filter].
  change (omap (fun raw => resolved_octeliumGroup <$> resolvedGroups !! raw)
               (raw :: rest))
    with (match resolved_octeliumGroup <$> resolvedGroups !! raw with
          | Some name =>
              name :: omap (fun raw => resolved_octeliumGroup
                                         <$> resolvedGroups !! raw) rest
          | None => omap (fun raw => resolved_octeliumGroup
                                       <$> resolvedGroups !! raw) rest
          end).
  destruct (keep raw) eqn:Hkeep.
  - change (omap (fun raw => resolved_octeliumGroup <$> resolvedGroups !! raw)
                 (raw :: List.filter keep rest))
      with (match resolved_octeliumGroup <$> resolvedGroups !! raw with
            | Some name =>
                name :: omap (fun raw => resolved_octeliumGroup
                                           <$> resolvedGroups !! raw)
                             (List.filter keep rest)
            | None => omap (fun raw => resolved_octeliumGroup
                                         <$> resolvedGroups !! raw)
                           (List.filter keep rest)
            end).
    now rewrite IH.
  - rewrite (Hdropped raw Hkeep). cbn. exact IH.
Qed.

(** C4. In the rendered users document every name of a user's group list is
    a group name of the rendered groups document. A raw group whose
    resolution is absent never shows in a rendered group list: every name of
    the list is the target name of the resolution of a raw group that the
    user belongs to and that is among the raw groups; a raw name whose
    resolution is absent is translated to nothing; and taking the raw groups
    whose resolution is absent out of a user's memberships leaves the
    rendered user as it is. *)
Theorem rendered_user_groups_are_rendered_groups (groups : list Group)
    (users : list UserWithGroups) (mapping : GroupMapping)
    (options : GeneratorOptions) :
  let mappingLoader := new_MappingLoader mapping in
  let generated := generateGroupsYaml groups mappingLoader options in
  let usersDocument := generateUsersYaml users generated.2 options in
  (forall user name,
     user ∈ documentUsers usersDocument ->
     name ∈ renderedGroupList user ->
     name ∈ documentGroupNames generated.1) /\
  (forall user name,
     user ∈ users ->
     name ∈ renderedGroupList (renderUser generated.2 user) ->
     exists raw r,
       raw ∈ uwg_groups user /\ raw ∈ map group_name groups
       /\ resolveGroup mappingLoader raw = Some r
       /\ resolved_octeliumGroup r = name) /\
  (forall raw,
     resolveGroup mappingLoader raw = None ->
     translateGroups generated.2 [raw] = []) /\
  (forall user,
     renderUser generated.2
       {| uwg_user := uwg_user user;
          uwg_groups :=
            List.filter
              (fun raw => bool_decide (is_Some (resolveGroup mappingLoader raw)))
              (uwg_groups user) |}
     = renderUser generated.2 user).
Proof.
  intros mappingLoader generated usersDocument.
  assert (Hsource : forall user name,
    name ∈ renderedGroupList (renderUser generated.2 user) ->
    exists raw r,
      raw ∈ uwg_groups user /\ raw ∈ map group_name groups
      /\ resolveGroup mappingLoader raw = Some r
      /\ resolved_octeliumGroup r = name).
  { intros user name Hname.
    change (name ∈ translateGroups generated.2 (uwg_groups user)) in Hname.
    apply elem_of_translateGroups in Hname as (raw & r & Hraw & Hlook & Htarget).
    unfold generated in Hlook. rewrite generateGroupsYaml_map in Hlook.
    destruct (decide (raw ∈ map group_name groups)) as [Hin|]; [|discriminate].
    now exists raw, r. }
  split; [|split; [|split]].
  - intros rendered name Hrendered Hname.
    unfold usersDocument in Hrendered.
    cbn [generateUsersYaml documentUsers] in Hrendered.
    apply list_elem_of_fmap in Hrendered as (user & -> & Huser).
    destruct (Hsource user name Hname) as (raw & r & _ & Hin & Hres & <-).
    unfold generated. rewrite generateGroupsYaml_names.
    apply list_elem_of_omap.
    apply list_elem_of_fmap in Hin as (g & -> & Hg).
    exists g. split; [assumption|]. now rewrite Hres.
  - intros user name _ Hname. exact (Hsource user name Hname).
  - intros raw Hres. unfold translateGroups. cbn [omap list_omap].
    unfold generated. rewrite generateGroupsYaml_map.
    destruct (decide _); [rewrite Hres|]; reflexivity.
  - intros user. unfold renderUser. cbn [uwg_user uwg_groups].
    rewrite translateGroups_filter; [reflexivity|].
    intros raw Hskipped. apply bool_decide_eq_false_1 in Hskipped.
    unfold generated. rewrite generateGroupsYaml_map.
    destruct (decide _); [|reflexivity].
    destruct (resolveGroup mappingLoader raw) as [r|]; [|reflexivity].
    exfalso. apply Hskipped. now exists r.
Qed.

Lemma rendered_user_groups_are_rendered_groups_witness :
  "administrators"
  ∈ documentGroupNames
      (generateGroupsYaml rawGroups (new_MappingLoader scenarioMapping)
                          sampleGeneratorOptions).1.
Proof.
  apply (proj1 (rendered_user_groups_are_rendered_groups
                  rawGroups [alice] scenarioMapping sampleGeneratorOptions)
               (renderUser
                  (generateGroupsYaml rawGroups
                     (new_MappingLoader scenarioMapping)
                     sampleGeneratorOptions).2 alice)
               "administrators").
  - apply list_elem_of_here.
  - vm_compute. apply list_elem_of_here.
Defined.

Example generateGroupsYaml_scenario :
  (generateGroupsYaml rawGroups (new_MappingLoader scenarioMapping)
                      sampleGeneratorOptions).1
  = GroupsDocument
      [ renderGroup {| resolved_octeliumGroup := "administrators";
                       resolved_displayName := "admins";
                       resolved_policies := ["admin-policy"];
                       resolved_sync := true |} ].
Proof. vm_compute. reflexivity. Qed.

Example generateUsersYaml_scenario :
  map renderedGroupList
      (documentUsers
         (generateUsersYaml [alice]
            (generateGroupsYaml rawGroups (new_MappingLoader scenarioMapping)
                                sampleGeneratorOptions).2
            sampleGeneratorOptions))
  = [["administrators"]].
Proof. vm_compute. reflexivity. Qed.

(** ** More on the mapping loader *)

(** X1. A group name resolves to absent in exactly two ways: its own entry
    sets [sync] to false, or it has no own entry, is not a member inherited
    from [Object.prototype], and the unmapped-groups policy is neither
    [include] nor [include-no-policies]. *)
Theorem resolveGroup_absent_iff (m : GroupMapping) (G : string) :
  resolveGroup (new_MappingLoader m) G = None <->
  match groups m !! G with
  | Some entry => sync entry = Some false
  | None =>
      (G ∉ objectPrototypeKeys)
      /\ (default "skip" (defaults m ≫= unmappedGroups) ≠ "include")
      /\ (default "skip" (defaults m ≫= unmappedGroups)
          ≠ "include-no-policies")
  end.
Proof.
  unfold resolveGroup, getProperty.
  cbn [loader_mapping loader_defaults new_MappingLoader
       required_unmappedGroups required_defaultPolicies].
  change (nullish (defaults m ≫= unmappedGroups) "skip")
    with (default "skip" (defaults m ≫= unmappedGroups)).
  set (policy := default "skip" (defaults m ≫= unmappedGroups)).
  destruct (groups m !! G) as [entry|].
  - destruct (sync entry) as [[|]|]; cbn; split; congruence.
  - destruct (decide (G ∈ objectPrototypeKeys)) as [Hin|Hnin].
    + rewrite bool_decide_eq_true_2 by exact Hin. cbn.
      split; [discriminate|]. intros [Hno _]. contradiction.
    + rewrite bool_decide_eq_false_2 by exact Hnin. cbv zeta.
      destruct (String.eqb_spec policy "skip") as [Hskip|Hskip].
      * split; [|reflexivity]. intros _. rewrite Hskip.
        repeat split; [assumption|discriminate|discriminate].
      * destruct (String.eqb_spec policy "include") as [Hinc|Hinc].
        { split; [discriminate|]. intros (_ & Hno & _). contradiction. }
        destruct (String.eqb_spec policy "include-no-policies") as [Hnp|Hnp].
        { split; [discriminate|]. intros (_ & _ & Hno). contradiction. }
        split; [|reflexivity]. intros _. repeat split; assumption.
Qed.

(** X2. Whatever the loader holds, a group that [resolveGroup] returns has
    its sync flag set: the flag of a returned group is never false. *)
Theorem resolveGroup_sync_true (this : MappingLoader) (G : string)
    (r : ResolvedGroupMapping) :
  resolveGroup this G = Some r -> resolved_sync r = true.
Proof.
  unfold resolveGroup. intros Hres.
  destruct (getProperty (groups (loader_mapping this)) G) as [entry|].
  - destruct (sync entry) as [[|]|]; cbn in Hres; try discriminate;
      injection Hres as <-; reflexivity.
  - cbv zeta in Hres.
    repeat match type of Hres with
           | (if ?b then _ else _) = _ => destruct b
           end; try discriminate; injection Hres as <-; reflexivity.
Qed.

Lemma resolveGroup_sync_true_witness :
  resolved_sync
    {| resolved_octeliumGroup := "guests"; resolved_displayName := "guests";
       resolved_policies := []; resolved_sync := true |} = true.
Proof.
  apply (resolveGroup_sync_true (new_MappingLoader mixedMapping) "guests").
  reflexivity.
Defined.

(** X3. A name that the table inherits from [Object.prototype] and does not
    list itself resolves to a group of that name with the default policies,
    whatever the unmapped-groups policy says. *)
Theorem resolveGroup_inherited (m : GroupMapping) (G : string) :
  groups m !! G = None ->
  G ∈ objectPrototypeKeys ->
  resolveGroup (new_MappingLoader m) G =
    Some {| resolved_octeliumGroup := G; resolved_displayName := G;
            resolved_policies := default [] (defaults m ≫= defaultPolicies);
            resolved_sync := true |}.
Proof.
  intros Hown Hproto. unfold resolveGroup.
  cbn [loader_mapping new_MappingLoader].
  rewrite (getProperty_inherited _ _ Hown Hproto). reflexivity.
Qed.

Lemma resolveGroup_inherited_witness :
  resolveGroup (new_MappingLoader scenarioMapping) "toString" =
    Some {| resolved_octeliumGroup := "toString";
            resolved_displayName := "toString";
            resolved_policies := []; resolved_sync := true |}.
Proof.
  apply (resolveGroup_inherited scenarioMapping "toString").
  - reflexivity.
  - apply (bool_decide_eq_true_1 ("toString" ∈ objectPrototypeKeys)).
    vm_compute. reflexivity.
Defined.

(** X6. [shouldExcludeUser] depends on the patterns as a set: two lists with
    the same patterns, in any order and with any repetition, give the same
    answer. *)
Theorem shouldExcludeUser_same_patterns (minimatch : string -> string -> bool)
    (u : string) (P Q : list string) :
  (forall p, p ∈ P <-> p ∈ Q) ->
  shouldExcludeUser minimatch u P = shouldExcludeUser minimatch u Q.
Proof.
  intros Hsame. rewrite !shouldExcludeUser_existsb.
  apply eq_true_iff_eq. rewrite !existsb_exists.
  split; intros (p & Hin & Hmatch); exists p; split; try assumption;
    apply list_elem_of_In; apply Hsame; now apply list_elem_of_In.
Qed.

Lemma shouldExcludeUser_same_patterns_witness :
  shouldExcludeUser wildcardMatch "svc-batch" ["svc-*"; "admin"]
  = shouldExcludeUser wildcardMatch "svc-batch" ["admin"; "svc-*"; "admin"].
Proof.
  apply (shouldExcludeUser_same_patterns wildcardMatch "svc-batch").
  intros p. rewrite !elem_of_cons, !elem_of_nil. tauto.
Defined.

(** ** More on loading the mapping *)

(** X5. [fromFile] prints nothing. It returns a loader exactly when the file
    is read, its content parses and the document has a groups table, and the
    loader is the one over that table and the document's defaults; an error
    of the read or of the parser is passed on as it is, and after a failed
    read the parser has no say. *)
Theorem fromFile_outcomes (parseYaml : string -> Outcome ParsedMapping)
    (bun_file_text : string -> Outcome string) (filePath : string) :
  events (fromFile parseYaml bun_file_text filePath) = [] /\
  (forall loader,
     outcome (fromFile parseYaml bun_file_text filePath) = Return loader
     <-> exists content doc table,
           bun_file_text filePath = Return content
           /\ parseYaml content = Return doc
           /\ parsed_groups doc = Some table
           /\ loader = new_MappingLoader
                         {| groups := table;
                            defaults := parsed_defaults doc |}) /\
  (forall e, bun_file_text filePath = Throw e ->
     forall otherParser,
       outcome (fromFile otherParser bun_file_text filePath) = Throw e) /\
  (forall content e,
     bun_file_text filePath = Return content ->
     parseYaml content = Throw e ->
     outcome (fromFile parseYaml bun_file_text filePath) = Throw e).
Proof.
  unfold fromFile, await, bind, events, outcome.
  repeat split.
  - destruct (bun_file_text filePath) as [content|e]; [|reflexivity].
    destruct (parseYaml content) as [doc|e]; [|reflexivity].
    now destruct (parsed_groups doc).
  - destruct (bun_file_text filePath) as [content|e]; [|discriminate].
    destruct (parseYaml content) as [doc|e] eqn:Hparse; [|discriminate].
    destruct (parsed_groups doc) as [table|] eqn:Htable; [|discriminate].
    cbn. intros [= <-]. now exists content, doc, table.
  - intros (content & doc & table & -> & Hparse & Htable & ->).
    rewrite Hparse. cbn. now rewrite Htable.
  - intros e -> otherParser. reflexivity.
  - intros content e -> ->. reflexivity.
Qed.

(** ** More on the exclude option *)

(** X7. Every effective exclude pattern is non-empty, holds no comma, and
    neither starts nor ends with white space. *)
Theorem excludePatterns_clean (excludeUsers pattern : string) :
  pattern ∈ excludePatterns excludeUsers ->
  pattern ≠ EmptyString
  /\ contains "," pattern = false
  /\ startsWithWhiteSpace pattern = false
  /\ endsWithWhiteSpace pattern = false.
Proof.
  unfold excludePatterns. intros Hin.
  apply list_elem_of_In, filter_In in Hin as [Hin Hlen].
  apply in_map_iff in Hin as (segment & <- & Hsegment).
  pose proof (split_no_separator "," excludeUsers) as Hcommas.
  rewrite Forall_forall in Hcommas.
  apply list_elem_of_In in Hsegment. specialize (Hcommas _ Hsegment).
  cbv beta in Hcommas. unfold trim in *.
  repeat split.
  - intros Hempty. rewrite Hempty in Hlen. discriminate.
  - now apply trimEnd_contains, trimStart_contains.
  - apply trimEnd_start, trimStart_start.
  - apply trimEnd_end.
Qed.

Lemma excludePatterns_clean_witness :
  "svc-*" ≠ EmptyString
  /\ contains "," "svc-*" = false
  /\ startsWithWhiteSpace "svc-*" = false
  /\ endsWithWhiteSpace "svc-*" = false.
Proof.
  apply (excludePatterns_clean " svc-* ,, admin").
  vm_compute. apply list_elem_of_here.
Defined.

Lemma split_blank (s : string) :
  blank s = true -> Forall (fun segment => trim segment = EmptyString)
                           (split "," s).
Proof.
  unfold blank. induction s as [|c rest IH]; cbn [split allChars].
  - intros _. now constructor.
  - intros Hs. apply andb_true_iff in Hs as [Hc Hrest]. specialize (IH Hrest).
    destruct (Ascii.eqb_spec c ",") as [->|Hne].
    + now constructor.
    + rewrite orb_false_r in Hc.
      pose proof (split_nonempty "," rest) as Hnil.
      destruct (split "," rest) as [|seg segs]; [contradiction|].
      inversion IH as [|? ? Hseg Hsegs]; subst.
      constructor; [|assumption].
      unfold trim in *. cbn [trimStart]. now rewrite Hc.
Qed.

(** X8. When the exclude option holds nothing but commas and white space,
    the empty default included, there is no effective pattern and the filter
    of [runSync] keeps exactly the enabled users, in their order. *)
Theorem blank_exclude_keeps_enabled (minimatch : string -> string -> bool)
    (usersWithGroups : list UserWithGroups) (excludeUsers : string) :
  blank excludeUsers = true ->
  excludePatterns excludeUsers = [] /\
  outcome (filter_io (keepUser minimatch (excludePatterns excludeUsers))
                     usersWithGroups)
  = Return (List.filter (fun user => user_enabled (uwg_user user))
                        usersWithGroups).
Proof.
  intros Hblank.
  assert (Hnone : excludePatterns excludeUsers = []).
  { unfold excludePatterns. pose proof (split_blank _ Hblank) as Hsegments.
    induction Hsegments as [|seg segs Hseg _ IH]; [reflexivity|].
    cbn [map List.filter]. rewrite Hseg. cbn. exact IH. }
  split; [exact Hnone|]. rewrite Hnone.
  rewrite (filter_io_outcome _ (kept minimatch []) _ (keepUser_outcome _ _)).
  f_equal. apply filter_ext. intros user. unfold kept. cbn.
  now rewrite andb_true_r.
Qed.

Lemma blank_exclude_keeps_enabled_witness :
  excludePatterns " , ," = [] /\
  outcome (filter_io (keepUser wildcardMatch (excludePatterns " , ,"))
                     [alice; bob; svcBatch])
  = Return (List.filter (fun user => user_enabled (uwg_user user))
                        [alice; bob; svcBatch]).
Proof.
  apply (blank_exclude_keeps_enabled wildcardMatch [alice; bob; svcBatch] " , ,").
  reflexivity.
Defined.

(** The filter of [runSync], in full: a line for every user it drops, and the
    users it keeps. *)
Lemma filter_io_keepUser (minimatch : string -> string -> bool)
    (patterns : list string) (users : list UserWithGroups) :
  filter_io (keepUser minimatch patterns) users
  = (omap (skipLine minimatch patterns) users,
     Return (List.filter (kept minimatch patterns) users)).
Proof.
  induction users as [|user rest IH]; [reflexivity|].
  cbn [filter_io]. rewrite IH.
  change (omap (skipLine minimatch patterns) (user :: rest))
    with (match skipLine minimatch patterns user with
          | Some line => line :: omap (skipLine minimatch patterns) rest
          | None => omap (skipLine minimatch patterns) rest
          end).
  cbn [List.filter].
  set (restLines := omap (skipLine minimatch patterns) rest).
  set (restKept := List.filter (kept minimatch patterns) rest).
  unfold keepUser, skipLine, kept. rewrite shouldExcludeUser_existsb.
  unfold bind, emit, ret.
  destruct (user_enabled (uwg_user user)); cbn [negb andb app].
  - destruct (existsb _ patterns); cbn [app]; now rewrite app_nil_r.
  - now rewrite app_nil_r.
Qed.

(** X9. The filter of [runSync] accounts for every fetched user: it prints
    one line for each user it drops and none for a user it keeps, so the
    lines and the kept users add up to the fetched users; and a disabled
    user is reported as disabled even when a pattern matches it. *)
Theorem filter_accounts_for_every_user (minimatch : string -> string -> bool)
    (patterns : list string) (users : list UserWithGroups) :
  let run := filter_io (keepUser minimatch patterns) users in
  (forall filteredUsers,
     outcome run = Return filteredUsers ->
     length (events run) + length filteredUsers = length users) /\
  (forall user,
     user ∈ users -> user_enabled (uwg_user user) = false ->
     ConsoleLog ("  Skipping disabled user: " +:+ user_username (uwg_user user))
       ∈ events run) /\
  (forall line,
     ConsoleLog ("  Skipping excluded user: " +:+ line) ∈ events run ->
     exists user, user ∈ users /\ user_username (uwg_user user) = line
                  /\ user_enabled (uwg_user user) = true
                  /\ shouldExcludeUser minimatch line patterns = true).
Proof.
  intros run. subst run. rewrite filter_io_keepUser. cbn [events outcome fst snd].
  split; [|split].
  - intros filteredUsers [= <-].
    induction users as [|user rest IH]; [reflexivity|].
    change (omap (skipLine minimatch patterns) (user :: rest))
      with (match skipLine minimatch patterns user with
            | Some line => line :: omap (skipLine minimatch patterns) rest
            | None => omap (skipLine minimatch patterns) rest
            end).
    cbn [List.filter].
    assert (Hcase :
      (skipLine minimatch patterns user = None
       /\ kept minimatch patterns user = true)
      \/ (exists line, skipLine minimatch patterns user = Some line
                       /\ kept minimatch patterns user = false)).
    { unfold skipLine, kept.
      destruct (user_enabled (uwg_user user)); cbn [negb andb];
        [destruct (existsb _ patterns); cbn [negb]|]; eauto. }
    destruct Hcase as [[-> ->]|(line & -> & ->)]; cbn [length]; lia.
  - intros user Huser Hdisabled. apply list_elem_of_omap.
    exists user. split; [assumption|]. unfold skipLine. now rewrite Hdisabled.
  - intros line Hline. apply list_elem_of_omap in Hline as (user & Huser & Hskip).
    unfold skipLine in Hskip.
    destruct (user_enabled (uwg_user user)) eqn:Henabled; cbn [negb] in Hskip.
    + destruct (existsb _ patterns) eqn:Hsome; [|discriminate].
      injection Hskip as Hskip.
      change (user_username (uwg_user user) = line) in Hskip.
      rename Hskip into Hname.
      exists user. repeat split; try assumption.
      rewrite shouldExcludeUser_existsb, <- Hname. exact Hsome.
    + vm_compute in Hskip. discriminate Hskip.
Qed.

Lemma filter_accounts_for_every_user_witness :
  ConsoleLog "  Skipping disabled user: bob"
  ∈ events (filter_io (keepUser wildcardMatch ["bob"; "svc-*"])
                      [alice; bob; svcBatch]).
Proof.
  apply (proj1 (proj2 (filter_accounts_for_every_user
                         wildcardMatch ["bob"; "svc-*"]
                         [alice; bob; svcBatch])) bob).
  - apply list_elem_of_further, list_elem_of_here.
  - reflexivity.
Defined.

(** ** More on the run *)

Section Run.

Variable minimatch : string -> string -> bool.
Variable parseYaml : string -> Outcome ParsedMapping.
Variable bun_file_text : string -> Outcome string.
Variable bun_write : string -> Document -> Outcome unit.
Variable new_KcAdminClient : string -> string -> KcAdminClient.

(** X10. A provider other than [keycloak] ends the run after its first line,
    with the error that names the provider: no setting is checked, no file
    is read and no server is contacted. *)
Theorem runSync_unsupported_provider (options : SyncOptions) :
  opt_provider options ≠ "keycloak" ->
  runSync minimatch parseYaml bun_file_text bun_write new_KcAdminClient options
  = ([ ConsoleLog ("Starting sync..." +:+ nl) ],
     Throw (new_Error ("Unsupported provider: " +:+ opt_provider options
                       +:+ ". Supported: keycloak"))).
Proof.
  intros Hprovider. unfold runSync.
  destruct (String.eqb_spec (opt_provider options) "keycloak") as [Heq|_];
    [contradiction|].
  reflexivity.
Qed.

Lemma required_missing (value : option string) (message : string) :
  given value = false -> required value message = throw (new_Error message).
Proof. destruct value as [[|c s]|]; cbn; [reflexivity|discriminate|reflexivity]. Qed.

(** X11. With the [keycloak] provider, a Keycloak setting that is missing or
    empty ends the run after its first line, with the message of the first
    such setting in the order URL, realm, client id, client secret: the
    mapping file is not read and no server is contacted. *)
Theorem runSync_missing_setting (options : SyncOptions) :
  opt_provider options = "keycloak" ->
  optionsAccepted options = false ->
  runSync minimatch parseYaml bun_file_text bun_write new_KcAdminClient options
  = ([ ConsoleLog ("Starting sync..." +:+ nl) ],
     Throw (new_Error (missingSetting options))).
Proof.
  intros Hprovider Hrejected. unfold optionsAccepted in Hrejected.
  rewrite Hprovider, String.eqb_refl in Hrejected. cbn [andb] in Hrejected.
  unfold runSync, missingSetting. rewrite Hprovider, String.eqb_refl.
  cbn [negb].
  destruct (given (opt_keycloakUrl options)) eqn:Hurl; cbn [negb andb] in *.
  2:{ now rewrite (required_missing _ _ Hurl). }
  destruct (required_given _ "--keycloak-url is required" Hurl)
    as (url & _ & ->).
  destruct (given (opt_keycloakRealm options)) eqn:Hrealm; cbn [negb andb] in *.
  2:{ now rewrite (required_missing _ _ Hrealm). }
  destruct (required_given _ "--keycloak-realm is required" Hrealm)
    as (realm & _ & ->).
  destruct (given (opt_keycloakClientId options)) eqn:Hid; cbn [negb andb] in *.
  2:{ now rewrite (required_missing _ _ Hid). }
  destruct (required_given _ "--keycloak-client-id is required" Hid)
    as (clientId & _ & ->).
  now rewrite (required_missing _ _ Hrejected).
Qed.

End Run.

Lemma runSync_unsupported_provider_witness :
  runSync wildcardMatch sampleParse sampleFiles writableDisk
          (fun _ _ => sampleClient)
          {| opt_provider := "okta"; opt_mapping := "group-mapping.yaml";
             opt_outputUsers := "users.yaml"; opt_outputGroups := "groups.yaml";
             opt_keycloakUrl := None; opt_keycloakRealm := None;
             opt_keycloakClientId := None; opt_keycloakClientSecret := None;
             opt_excludeUsers := EmptyString; opt_dryRun := false |}
  = ([ ConsoleLog ("Starting sync..." +:+ nl) ],
     Throw (new_Error "Unsupported provider: okta. Supported: keycloak")).
Proof.
  apply (runSync_unsupported_provider wildcardMatch sampleParse sampleFiles
           writableDisk (fun _ _ => sampleClient)).
  discriminate.
Defined.

Lemma runSync_missing_setting_witness :
  runSync wildcardMatch sampleParse sampleFiles writableDisk
          (fun _ _ => sampleClient) noSecretOptions
  = ([ ConsoleLog ("Starting sync..." +:+ nl) ],
     Throw (new_Error
       "--keycloak-client-secret is required (or set KEYCLOAK_CLIENT_SECRET env)")).
Proof.
  apply (runSync_missing_setting wildcardMatch sampleParse sampleFiles
           writableDisk (fun _ _ => sampleClient) noSecretOptions).
  - reflexivity.
  - reflexivity.
Defined.

(** ** What a run writes *)

Lemma writesOf_app (evs evs' : list Event) :
  writesOf (evs ++ evs') = writesOf evs ++ writesOf evs'.
Proof. unfold writesOf. apply omap_app. Qed.

Lemma summary_bind {A B : Type} (m : IO A) (k : A -> IO B) :
  summary (bind m k)
  = match outcome m with
    | Return a => (writesOf (events m) ++ (summary (k a)).1, (summary (k a)).2)
    | Throw e => (writesOf (events m), Throw e)
    end.
Proof.
  destruct m as [evs [a|e]]; unfold summary, bind, events, outcome;
    cbn [fst snd]; [|reflexivity].
  destruct (k a) as [evs' r]. cbn [fst snd]. now rewrite writesOf_app.
Qed.

(** A step that writes nothing passes the summary of what follows through. *)
Lemma summary_bind_quiet {A B : Type} (m : IO A) (k : A -> IO B) :
  writesOf (events m) = [] ->
  summary (bind m k)
  = match outcome m with
    | Return a => summary (k a)
    | Throw e => ([], Throw e)
    end.
Proof.
  intros Hquiet. rewrite summary_bind, Hquiet.
  destruct (outcome m); [|reflexivity]. now destruct (summary (k a)).
Qed.

Lemma summary_bind_log {B : Type} (line : string) (k : unit -> IO B) :
  summary (bind (emit (ConsoleLog line)) k) = summary (k tt).
Proof. now rewrite summary_bind_quiet. Qed.

Lemma summary_bind_logDocument {B : Type} (doc : Document)
    (k : unit -> IO B) :
  summary (bind (emit (ConsoleLogDocument doc)) k) = summary (k tt).
Proof. now rewrite summary_bind_quiet. Qed.

Lemma summary_bind_write {B : Type}
    (bun_write : string -> Document -> Outcome unit) (path : string)
    (doc : Document) (k : unit -> IO B) :
  summary (bind (write bun_write path doc) k)
  = match bun_write path doc with
    | Return _ => (path :: (summary (k tt)).1, (summary (k tt)).2)
    | Throw e => ([], Throw e)
    end.
Proof.
  rewrite summary_bind. unfold write, await, bind, emit, events, outcome.
  destruct (bun_write path doc) as [[]|e]; reflexivity.
Qed.

Lemma quiet_bind {A B : Type} (m : IO A) (k : A -> IO B) :
  writesOf (events m) = [] ->
  (forall a, writesOf (events (k a)) = []) ->
  writesOf (events (bind m k)) = [].
Proof.
  intros Hm Hk. destruct m as [evs [a|e]]; unfold bind, events in *;
    cbn [fst snd] in *; [|exact Hm].
  specialize (Hk a). destruct (k a) as [evs' r]. cbn [fst snd] in *.
  now rewrite writesOf_app, Hm, Hk.
Qed.

Lemma quiet_try_catch {A : Type} (body : IO A) (handler : JsError -> IO A) :
  writesOf (events body) = [] ->
  (forall e, writesOf (events (handler e)) = []) ->
  writesOf (events (try_catch body handler)) = [].
Proof.
  intros Hbody Hhandler.
  destruct body as [evs [a|e]]; unfold try_catch, events in *;
    cbn [fst snd] in *; [exact Hbody|].
  specialize (Hhandler e). destruct (handler e) as [evs' r]. cbn [fst snd] in *.
  now rewrite writesOf_app, Hbody, Hhandler.
Qed.

Lemma quiet_for_of {A S : Type} (xs : list A) (body : S -> A -> IO S) (s : S) :
  (forall s x, writesOf (events (body s x)) = []) ->
  writesOf (events (for_of xs body s)) = [].
Proof.
  intros Hbody. revert s. induction xs as [|x rest IH]; intros s; cbn [for_of].
  - reflexivity.
  - apply quiet_bind; [apply Hbody|]. intros s'. apply IH.
Qed.

(** The provider and the loader write no file. *)
Lemma quiet_connect (this : KeycloakProvider) :
  writesOf (events (connect this)) = [].
Proof.
  unfold connect, await, bind, try_catch, emit, ret, throw.
  now destruct (client_auth _ _ _) as [[]|e].
Qed.

Lemma quiet_getGroups (this : KeycloakProvider) :
  writesOf (events (getGroups this)) = [].
Proof.
  unfold getGroups, ensureConnected, await, bind, ret, throw.
  destruct (kc_connected this); [|reflexivity].
  now destruct (client_groups_find _ _).
Qed.

Lemma quiet_getUsers (this : KeycloakProvider) :
  writesOf (events (getUsers this)) = [].
Proof.
  unfold getUsers, ensureConnected, await, bind, ret, throw.
  destruct (kc_connected this); [|reflexivity].
  now destruct (client_users_find _ _).
Qed.

Lemma quiet_fetchMembers (this : KeycloakProvider)
    (userGroupsMap : gmap string (list string)) (group : Group) :
  writesOf (events (fetchMembers this userGroupsMap group)) = [].
Proof.
  unfold fetchMembers, await, bind, try_catch, emit, ret.
  now destruct (client_groups_listMembers _ _ _).
Qed.

Lemma quiet_getUsersWithGroups (this : KeycloakProvider) :
  writesOf (events (getUsersWithGroups this)) = [].
Proof.
  unfold getUsersWithGroups.
  apply quiet_bind; [unfold ensureConnected; now destruct (kc_connected this)|].
  intros _. apply quiet_bind; [apply quiet_getUsers|]. intros users.
  apply quiet_bind; [apply quiet_getGroups|]. intros groups.
  apply quiet_bind; [reflexivity|]. intros _.
  apply quiet_bind; [|reflexivity].
  apply quiet_for_of. intros m g. apply quiet_fetchMembers.
Qed.

Lemma quiet_fromFile (parseYaml : string -> Outcome ParsedMapping)
    (bun_file_text : string -> Outcome string) (filePath : string) :
  writesOf (events (fromFile parseYaml bun_file_text filePath)) = [].
Proof.
  unfold fromFile, await, bind, ret, throw.
  destruct (bun_file_text filePath) as [content|e]; [|reflexivity].
  destruct (parseYaml content) as [doc|e]; [|reflexivity].
  now destruct (parsed_groups doc).
Qed.

Lemma quiet_required (value : option string) (message : string) :
  writesOf (events (required value message)) = [].
Proof. now destruct value as [[|c s]|]. Qed.

Lemma quiet_filter (minimatch : string -> string -> bool)
    (patterns : list string) (users : list UserWithGroups) :
  writesOf (events (filter_io (keepUser minimatch patterns) users)) = [].
Proof.
  rewrite filter_io_keepUser. cbn [events fst].
  induction users as [|user rest IH]; [reflexivity|].
  change (omap (skipLine minimatch patterns) (user :: rest))
    with (match skipLine minimatch patterns user with
          | Some line => line :: omap (skipLine minimatch patterns) rest
          | None => omap (skipLine minimatch patterns) rest
          end).
  unfold skipLine at 1.
  destruct (negb _); [exact IH|]. destruct (existsb _ _); exact IH.
Qed.

Section Writes.

Variable minimatch : string -> string -> bool.
Variable parseYaml : string -> Outcome ParsedMapping.
Variable bun_file_text : string -> Outcome string.
Variable bun_write : string -> Document -> Outcome unit.
Variable new_KcAdminClient : string -> string -> KcAdminClient.

(** The files a run writes and its ending, in the three shapes they take:
    nothing written; the groups file written and the run failed; both files
    written, groups first, and the run succeeded. *)
Lemma runSync_summary (options : SyncOptions) :
  let s := summary (runSync minimatch parseYaml bun_file_text bun_write
                            new_KcAdminClient options) in
  (s.1 = [] /\ (opt_dryRun options = false -> exists e, s.2 = Throw e))
  \/ (s.1 = [opt_outputGroups options] /\ opt_dryRun options = false
      /\ exists e, s.2 = Throw e)
  \/ (s = ([opt_outputGroups options; opt_outputUsers options], Return tt)
      /\ opt_dryRun options = false).
Proof.
  cbv zeta. unfold runSync.
  rewrite summary_bind_log.
  rewrite summary_bind_quiet
    by (destruct (negb _); reflexivity).
  destruct (negb _); cbn [outcome throw ret snd]; [left; cbn; eauto|].
  rewrite summary_bind_quiet by apply quiet_required.
  destruct (outcome (required _ _)) as [url|e]; [|left; cbn; eauto].
  rewrite summary_bind_quiet by apply quiet_required.
  destruct (outcome (required _ _)) as [realm|e]; [|left; cbn; eauto].
  rewrite summary_bind_quiet by apply quiet_required.
  destruct (outcome (required _ _)) as [clientId|e]; [|left; cbn; eauto].
  rewrite summary_bind_quiet by apply quiet_required.
  destruct (outcome (required _ _)) as [clientSecret|e]; [|left; cbn; eauto].
  rewrite summary_bind_log.
  rewrite summary_bind_quiet by apply quiet_fromFile.
  destruct (outcome (fromFile _ _ _)) as [mappingLoader|e];
    [|left; cbn; eauto].
  rewrite summary_bind_log.
  rewrite summary_bind_quiet by apply quiet_connect.
  destruct (outcome (connect _)) as [provider|e]; [|left; cbn; eauto].
  rewrite summary_bind_log.
  rewrite summary_bind_quiet by apply quiet_getGroups.
  destruct (outcome (getGroups _)) as [groups|e]; [|left; cbn; eauto].
  rewrite !summary_bind_log.
  rewrite summary_bind_quiet by apply quiet_getUsersWithGroups.
  destruct (outcome (getUsersWithGroups _)) as [usersWithGroups|e];
    [|left; cbn; eauto].
  rewrite summary_bind_log.
  rewrite summary_bind_quiet by apply quiet_filter.
  destruct (outcome (filter_io _ _)) as [filteredUsers|e]; [|left; cbn; eauto].
  rewrite !summary_bind_log.
  destruct (generateGroupsYaml _ _ _) as [groupsYaml resolvedGroups].
  rewrite !summary_bind_log.
  destruct (opt_dryRun options).
  - left. rewrite summary_bind_log, summary_bind_logDocument, summary_bind_log.
    split; [reflexivity|discriminate].
  - rewrite summary_bind_log, summary_bind_write.
    destruct (bun_write (opt_outputGroups options) groupsYaml) as [[]|e];
      [|left; cbn; eauto].
    rewrite summary_bind_log, summary_bind_write.
    destruct (bun_write (opt_outputUsers options) _) as [[]|e].
    + right. right. split; reflexivity.
    + right. left. cbn. eauto.
Qed.

(** X12. A dry run writes no file, however it ends. *)
Theorem runSync_dry_run_writes_nothing (options : SyncOptions) :
  opt_dryRun options = true ->
  writesOf (events (runSync minimatch parseYaml bun_file_text bun_write
                            new_KcAdminClient options)) = [].
Proof.
  intros Hdry.
  destruct (runSync_summary options) as [[Hnone _]|[(_ & Hwet & _)|[_ Hwet]]].
  - exact Hnone.
  - congruence.
  - congruence.
Qed.

(** X13. A run writes nothing, or the groups file alone, or the groups file
    and then the users file: the users file is never written unless the
    groups file was written before it, and no other path is written. When
    the groups file alone is written the run has failed. *)
Theorem runSync_write_order (options : SyncOptions) :
  let result := runSync minimatch parseYaml bun_file_text bun_write
                        new_KcAdminClient options in
  writesOf (events result) = []
  \/ (writesOf (events result) = [opt_outputGroups options]
      /\ exists e, outcome result = Throw e)
  \/ writesOf (events result)
     = [opt_outputGroups options; opt_outputUsers options].
Proof.
  cbv zeta.
  destruct (runSync_summary options) as [[Hnone _]|[(Hone & _ & He)|[Hboth _]]].
  - left. exact Hnone.
  - right. left. split; [exact Hone|exact He].
  - right. right. unfold summary in Hboth. now injection Hboth as -> _.
Qed.

(** X14. Both files are written exactly when the run is not a dry run and
    succeeds. *)
Theorem runSync_writes_both_iff (options : SyncOptions) :
  let result := runSync minimatch parseYaml bun_file_text bun_write
                        new_KcAdminClient options in
  writesOf (events result)
  = [opt_outputGroups options; opt_outputUsers options]
  <-> opt_dryRun options = false /\ outcome result = Return tt.
Proof.
  cbv zeta.
  destruct (runSync_summary options)
    as [[Hnone Hfail]|[(Hone & Hwet & [e He])|[Hboth Hwet]]];
    cbv zeta in *; unfold summary in *; cbn [fst snd] in *.
  - split.
    + rewrite Hnone. discriminate.
    + intros [Hwet Hok]. destruct (Hfail Hwet) as [e He]. congruence.
  - split.
    + rewrite Hone. discriminate.
    + intros [_ Hok]. congruence.
  - injection Hboth as Hwrites Hok. now rewrite Hwrites, Hok.
Qed.

End Writes.

Lemma runSync_dry_run_writes_nothing_witness :
  writesOf (events (runSync wildcardMatch sampleParse sampleFiles writableDisk
                            (fun _ _ => sampleClient) dryRunOptions)) = [].
Proof.
  apply (runSync_dry_run_writes_nothing wildcardMatch sampleParse sampleFiles
           writableDisk (fun _ _ => sampleClient) dryRunOptions).
  reflexivity.
Defined.

Lemma runSync_writes_both_iff_witness :
  writesOf (events (runSync wildcardMatch sampleParse sampleFiles writableDisk
                            (fun _ _ => sampleClient) writingOptions))
  = ["groups.yaml"; "users.yaml"].
Proof.
  apply (proj2 (runSync_writes_both_iff wildcardMatch sampleParse sampleFiles
                  writableDisk (fun _ _ => sampleClient) writingOptions)).
  split.
  - reflexivity.
  - vm_compute. reflexivity.
Defined.

Example runSync_users_write_refused :
  summary (runSync wildcardMatch sampleParse sampleFiles usersRefusedDisk
                   (fun _ _ => sampleClient) writingOptions)
  = (["groups.yaml"],
     Throw {| error_name := "EACCES"; error_message := "permission denied" |}).
Proof. vm_compute. reflexivity. Qed.

(** ** More on the Keycloak provider *)

(** X15. [connect] succeeds exactly when the server accepts the client
    credentials. The provider it then gives has the same client and
    configuration and passes [ensureConnected]; when the server refuses, the
    error is an [Error] whose message is the server's, behind a fixed
    prefix, and nothing is printed. *)
Theorem connect_outcomes (this : KeycloakProvider) :
  (forall connected,
     outcome (connect this) = Return connected
     <-> client_auth (kc_client this) (config_clientId (kc_config this))
                     (config_clientSecret (kc_config this)) = Return tt
         /\ connected = {| kc_client := kc_client this;
                           kc_config := kc_config this;
                           kc_connected := true |}) /\
  (forall connected,
     outcome (connect this) = Return connected ->
     ensureConnected connected = ret tt) /\
  (forall e,
     client_auth (kc_client this) (config_clientId (kc_config this))
                 (config_clientSecret (kc_config this)) = Throw e ->
     connect this
     = ([], Throw (new_Error ("Failed to connect to Keycloak: "
                              +:+ error_message e)))).
Proof.
  unfold connect, await, bind, try_catch, emit, ret, throw, outcome.
  destruct (client_auth _ _ _) as [[]|e0]; cbn [snd app].
  - split; [|split].
    + intros connected. split.
      * intros [= <-]. split; reflexivity.
      * intros [_ ->]. reflexivity.
    + intros connected [= <-]. reflexivity.
    + intros e He. discriminate He.
  - split; [|split].
    + intros connected. split; [discriminate|]. intros [Hno _]. discriminate Hno.
    + intros connected Hno. discriminate Hno.
    + intros e [= <-]. reflexivity.
Qed.

Lemma connect_outcomes_witness :
  connect (new_KeycloakProvider refusingClient (kc_config sampleProvider))
  = ([], Throw (new_Error "Failed to connect to Keycloak: invalid_client")).
Proof.
  apply (proj2 (proj2 (connect_outcomes
           (new_KeycloakProvider refusingClient (kc_config sampleProvider))))
           {| error_name := "Error"; error_message := "invalid_client" |}).
  reflexivity.
Defined.

(** X16. Without a session every lookup refuses with the same error and
    prints nothing, whatever the server would answer; a provider that was
    just created is in that state. *)
Theorem lookups_refuse_without_session (this : KeycloakProvider)
    (groupId : string) :
  kc_connected this = false ->
  getUsers this = ([], Throw notConnected)
  /\ getGroups this = ([], Throw notConnected)
  /\ getGroupMembers this groupId = ([], Throw notConnected)
  /\ getUsersWithGroups this = ([], Throw notConnected).
Proof.
  intros Hoff.
  unfold getUsersWithGroups, getUsers, getGroups, getGroupMembers,
    ensureConnected.
  rewrite Hoff. repeat split; reflexivity.
Qed.

Lemma lookups_refuse_without_session_witness :
  getUsers (new_KeycloakProvider sampleClient (kc_config sampleProvider))
  = ([], Throw notConnected)
  /\ getGroups (new_KeycloakProvider sampleClient (kc_config sampleProvider))
     = ([], Throw notConnected)
  /\ getGroupMembers
       (new_KeycloakProvider sampleClient (kc_config sampleProvider)) "g1"
     = ([], Throw notConnected)
  /\ getUsersWithGroups
       (new_KeycloakProvider sampleClient (kc_config sampleProvider))
     = ([], Throw notConnected).
Proof.
  apply (lookups_refuse_without_session
           (new_KeycloakProvider sampleClient (kc_config sampleProvider)) "g1").
  reflexivity.
Defined.

(** The loop over the subgroups of a node, for subgroups that flatten to
    their preorder. *)
Lemma flatten_subgroups (subs : list GroupRepresentation) :
  Forall (fun g => forall result, flattenGroup g result = result ++ preorder g)
         subs ->
  forall result,
    (fix each (gs : list GroupRepresentation) (result : list Group)
       : list Group :=
       match gs with
       | [] => result
       | g' :: gs' => each gs' (flattenGroup g' result)
       end) subs result
    = result ++ flat_map preorder subs.
Proof.
  induction 1 as [|g rest Hg _ IH]; intros result.
  - cbn. now rewrite app_nil_r.
  - cbn [flat_map]. rewrite app_assoc, <- Hg. apply IH.
Qed.

Lemma flattenGroup_preorder (g : GroupRepresentation) (result : list Group) :
  flattenGroup g result = result ++ preorder g.
Proof.
  revert result.
  induction g as [id name path subGroups IH] using GroupRepresentation_tree_ind.
  intros result. cbn [flattenGroup preorder].
  destruct subGroups as [subs|].
  - destruct subs as [|g' rest].
    + cbn. reflexivity.
    + change (0 <? length (g' :: rest))%nat with true. cbv iota.
      rewrite (flatten_subgroups (g' :: rest) IH).
      now rewrite <- app_assoc.
  - reflexivity.
Qed.

(** X17. [flattenGroups] keeps what the array held and appends the groups of
    the forest in preorder: every group at any depth once, a group before
    its subgroups, siblings and trees in the order of the answer. *)
Theorem flattenGroups_preorder (groups : list GroupRepresentation)
    (result : list Group) :
  flattenGroups groups result = result ++ flat_map preorder groups.
Proof.
  revert result. induction groups as [|g rest IH]; intros result.
  - cbn. now rewrite app_nil_r.
  - cbn [flattenGroups flat_map]. rewrite IH, flattenGroup_preorder.
    now rewrite <- app_assoc.
Qed.

(** ** More on the users-with-groups lookup *)

(** X18. [getUsersWithGroups] fails in three ways only: there is no session,
    or the user listing fails, or the group listing fails, and it then ends
    with that very error. With a session and both listings answered it
    returns one record for every fetched user, whatever the member listings
    do. *)
Theorem getUsersWithGroups_failures (this : KeycloakProvider) :
  if kc_connected this then
    match client_users_find (kc_client this) 10000%N with
    | Throw e => outcome (getUsersWithGroups this) = Throw e
    | Return users =>
        match client_groups_find (kc_client this) 10000%N with
        | Throw e => outcome (getUsersWithGroups this) = Throw e
        | Return _ =>
            exists result,
              outcome (getUsersWithGroups this) = Return result
              /\ map uwg_user result = map toUser users
        end
    end
  else outcome (getUsersWithGroups this) = Throw notConnected.
Proof.
  destruct (kc_connected this) eqn:Hconnected.
  - destruct (client_users_find (kc_client this) 10000%N) as [users|e] eqn:Husers.
    + destruct (client_groups_find (kc_client this) 10000%N)
        as [groupReps|e] eqn:Hgroups.
      * rewrite (getUsersWithGroups_connected this users groupReps
                   Hconnected Husers Hgroups).
        cbv zeta. cbn [outcome snd].
        rewrite (for_of_outcome (fetchMembers this)
                   (membersStep (kc_client this)) _ _
                   (fetchMembers_outcome this)).
        eexists. split; [reflexivity|].
        rewrite map_map. cbn. now rewrite map_id.
      * unfold getUsersWithGroups, getUsers, getGroups, ensureConnected.
        now rewrite Hconnected, Husers, Hgroups.
    + unfold getUsersWithGroups, getUsers, ensureConnected.
      now rewrite Hconnected, Husers.
  - unfold getUsersWithGroups, ensureConnected. now rewrite Hconnected.
Qed.

(** The array of a user after the inner loop over one group's members. *)
Lemma addMember_fold_lookup (groupName : string)
    (members : list UserRepresentation)
    (userGroupsMap : gmap string (list string)) (userId : string) :
  fold_left (addMember groupName) members userGroupsMap !! userId
  = (fun userGroups =>
       userGroups
       ++ map (fun _ => groupName)
              (List.filter (fun member => String.eqb (rep_id member) userId)
                           members))
    <$> userGroupsMap !! userId.
Proof.
  revert userGroupsMap.
  induction members as [|member rest IH]; intros m; cbn [fold_left].
  - cbn. destruct (m !! userId); cbn; [now rewrite app_nil_r|reflexivity].
  - rewrite IH. cbn [List.filter]. unfold addMember.
    destruct (String.eqb_spec (rep_id member) userId) as [->|Hne].
    + destruct (m !! userId) as [userGroups|] eqn:Hlook.
      * rewrite lookup_insert_eq. cbn. now rewrite <- app_assoc.
      * now rewrite Hlook.
    + destruct (m !! rep_id member); [now rewrite lookup_insert_ne|reflexivity].
Qed.

Lemma membersStep_lookup (client : KcAdminClient)
    (userGroupsMap : gmap string (list string)) (group : Group)
    (userId : string) :
  membersStep client userGroupsMap group !! userId
  = (fun userGroups => userGroups ++ listedMemberships client userId group)
    <$> userGroupsMap !! userId.
Proof.
  unfold membersStep, listedMemberships.
  destruct (client_groups_listMembers client (group_id group) 10000%N).
  - apply addMember_fold_lookup.
  - destruct (userGroupsMap !! userId); cbn; [now rewrite app_nil_r|reflexivity].
Qed.

Lemma membersStep_fold_lookup (client : KcAdminClient) (groups : list Group)
    (userGroupsMap : gmap string (list string)) (userId : string) :
  fold_left (membersStep client) groups userGroupsMap !! userId
  = (fun userGroups => userGroups ++ membershipsOf client groups userId)
    <$> userGroupsMap !! userId.
Proof.
  revert userGroupsMap.
  induction groups as [|g rest IH]; intros m; cbn [fold_left].
  - cbn. destruct (m !! userId); cbn; [now rewrite app_nil_r|reflexivity].
  - rewrite IH, membersStep_lookup. unfold membershipsOf. cbn [flat_map].
    destruct (m !! userId); cbn; [now rewrite <- app_assoc|reflexivity].
Qed.

(** The map before the member loop holds an empty array for every fetched
    user and nothing else. *)
Lemma initial_map_lookup (users : list User)
    (userGroupsMap : gmap string (list string)) (userId : string) :
  fold_left (fun m user => <[user_id user := []]> m) users userGroupsMap
    !! userId
  = if decide (userId ∈ map user_id users) then Some []
    else userGroupsMap !! userId.
Proof.
  revert userGroupsMap.
  induction users as [|user rest IH]; intros m; cbn [fold_left map].
  - now rewrite decide_False by apply not_elem_of_nil.
  - rewrite IH.
    destruct (decide (userId ∈ map user_id rest)) as [Hin|Hnin].
    + now rewrite decide_True by now apply list_elem_of_further.
    + destruct (decide (userId = user_id user)) as [->|Hne].
      * rewrite lookup_insert_eq.
        now rewrite decide_True by apply list_elem_of_here.
      * rewrite lookup_insert_ne by congruence.
        rewrite decide_False; [reflexivity|].
        intros Hin. apply elem_of_cons in Hin as [?|?]; contradiction.
Qed.

(** The array of a fetched user after the member loop. *)
Lemma final_map_lookup (client : KcAdminClient) (users : list User)
    (groups : list Group) (user : User) :
  user ∈ users ->
  fold_left (membersStep client) groups
            (fold_left (fun m user => <[user_id user := []]> m) users ∅)
    !! user_id user
  = Some (membershipsOf client groups (user_id user)).
Proof.
  intros Huser. rewrite membersStep_fold_lookup, initial_map_lookup.
  rewrite decide_True; [reflexivity|].
  apply list_elem_of_fmap. now exists user.
Qed.

(** X19. With a session and both listings answered, [getUsersWithGroups]
    returns the fetched users in order, each with the names of the fetched
    groups, in flattened order, whose member listing succeeds and holds a
    member with the user's id, once for every such member. Members that are
    not among the fetched users add nothing. *)
Theorem getUsersWithGroups_memberships (this : KeycloakProvider)
    (users : list UserRepresentation) (groupReps : list GroupRepresentation) :
  kc_connected this = true ->
  client_users_find (kc_client this) 10000%N = Return users ->
  client_groups_find (kc_client this) 10000%N = Return groupReps ->
  outcome (getUsersWithGroups this)
  = Return (map (fun user =>
                   {| uwg_user := user;
                      uwg_groups :=
                        membershipsOf (kc_client this)
                                      (flattenGroups groupReps [])
                                      (user_id user) |})
                (map toUser users)).
Proof.
  intros Hconnected Husers Hgroups.
  rewrite (getUsersWithGroups_connected this users groupReps
             Hconnected Husers Hgroups).
  cbv zeta. cbn [outcome snd].
  rewrite (for_of_outcome (fetchMembers this) (membersStep (kc_client this))
             _ _ (fetchMembers_outcome this)).
  f_equal. apply map_ext_in. intros user Huser.
  apply list_elem_of_In in Huser.
  now rewrite (final_map_lookup _ _ _ _ Huser).
Qed.

Lemma getUsersWithGroups_memberships_witness :
  outcome (getUsersWithGroups sampleProvider)
  = Return [ {| uwg_user := toUser aliceRep; uwg_groups := ["admins"] |};
             {| uwg_user := toUser bobRep; uwg_groups := ["admins"; "ops"] |} ].
Proof.
  apply (getUsersWithGroups_memberships sampleProvider [aliceRep; bobRep]
           [ mkGroupRepresentation "g1" "admins" (Some "/admins")
               (Some [ mkGroupRepresentation "g3" "ops" (Some "/admins/ops")
                         None ]);
             mkGroupRepresentation "g2" "guests" None (Some []) ]);
    reflexivity.
Defined.

Lemma fetchMembers_events (this : KeycloakProvider)
    (userGroupsMap : gmap string (list string)) (group : Group) :
  events (fetchMembers this userGroupsMap group)
  = match listingWarning (kc_client this) group with
    | Some warning => [warning]
    | None => []
    end.
Proof.
  unfold fetchMembers, listingWarning, memberWarning.
  now destruct (client_groups_listMembers _ _ _).
Qed.

Lemma member_loop_events (this : KeycloakProvider) (groups : list Group)
    (userGroupsMap : gmap string (list string)) :
  events (for_of groups (fetchMembers this) userGroupsMap)
  = omap (listingWarning (kc_client this)) groups.
Proof.
  revert userGroupsMap.
  induction groups as [|g rest IH]; intros m; [reflexivity|].
  cbn [for_of].
  rewrite (bind_return _ _ _ (fetchMembers_outcome this m g)).
  unfold events at 1. cbn [fst]. rewrite IH, fetchMembers_events.
  change (omap (listingWarning (kc_client this)) (g :: rest))
    with (match listingWarning (kc_client this) g with
          | Some warning => warning :: omap (listingWarning (kc_client this)) rest
          | None => omap (listingWarning (kc_client this)) rest
          end).
  now destruct (listingWarning (kc_client this) g).
Qed.

(** X20. With a session and both listings answered, [getUsersWithGroups]
    prints its progress line and then one warning for every fetched group
    whose member listing fails, in flattened order, and nothing else. *)
Theorem getUsersWithGroups_warnings (this : KeycloakProvider)
    (users : list UserRepresentation) (groupReps : list GroupRepresentation) :
  kc_connected this = true ->
  client_users_find (kc_client this) 10000%N = Return users ->
  client_groups_find (kc_client this) 10000%N = Return groupReps ->
  events (getUsersWithGroups this)
  = ConsoleLog ("  Fetching members for "
                +:+ pretty (length (flattenGroups groupReps []))
                +:+ " groups...")
    :: omap (listingWarning (kc_client this)) (flattenGroups groupReps []).
Proof.
  intros Hconnected Husers Hgroups.
  rewrite (getUsersWithGroups_connected this users groupReps
             Hconnected Husers Hgroups).
  cbv zeta. cbn [events fst]. f_equal. apply member_loop_events.
Qed.

Lemma getUsersWithGroups_warnings_witness :
  events (getUsersWithGroups sampleProvider)
  = [ ConsoleLog "  Fetching members for 3 groups...";
      memberWarning guestsGroup networkError ].
Proof.
  apply (getUsersWithGroups_warnings sampleProvider [aliceRep; bobRep]
           [ mkGroupRepresentation "g1" "admins" (Some "/admins")
               (Some [ mkGroupRepresentation "g3" "ops" (Some "/admins/ops")
                         None ]);
             mkGroupRepresentation "g2" "guests" None (Some []) ]);
    reflexivity.
Defined.

Lemma elem_of_membershipsOf (client : KcAdminClient) (groups : list Group)
    (userId name : string) :
  name ∈ membershipsOf client groups userId
  <-> exists group members,
        group ∈ groups /\ group_name group = name
        /\ client_groups_listMembers client (group_id group) 10000%N
           = Return members
        /\ userId ∈ map rep_id members.
Proof.
  unfold membershipsOf. rewrite list_elem_of_In, in_flat_map. split.
  - intros (group & Hgroup & Hname). unfold listedMemberships in Hname.
    destruct (client_groups_listMembers client (group_id group) 10000%N)
      as [members|e] eqn:Hlist; [|contradiction].
    apply in_map_iff in Hname as (member & <- & Hmember).
    apply filter_In in Hmember as [Hmember Hid].
    apply String.eqb_eq in Hid.
    exists group, members. repeat split; try assumption.
    + now apply list_elem_of_In.
    + apply list_elem_of_fmap. exists member. split; [congruence|].
      now apply list_elem_of_In.
  - intros (group & members & Hgroup & <- & Hlist & Hid).
    exists group. split; [now apply list_elem_of_In|].
    unfold listedMemberships. rewrite Hlist.
    apply list_elem_of_fmap in Hid as (member & -> & Hmember).
    apply in_map_iff. exists member. split; [reflexivity|].
    apply filter_In. split; [now apply list_elem_of_In|].
    apply String.eqb_refl.
Qed.

(** X21. The two member lookups agree: with a session and both listings
    answered, a name stands in the group list that [getUsersWithGroups]
    gives a user exactly when some fetched group of that name has members
    according to [getGroupMembers] and one of them has the user's id. *)
Theorem getUsersWithGroups_agrees_with_getGroupMembers
    (this : KeycloakProvider) (users : list UserRepresentation)
    (groupReps : list GroupRepresentation) (result : list UserWithGroups) :
  kc_connected this = true ->
  client_users_find (kc_client this) 10000%N = Return users ->
  client_groups_find (kc_client this) 10000%N = Return groupReps ->
  outcome (getUsersWithGroups this) = Return result ->
  forall record name,
    record ∈ result ->
    (name ∈ uwg_groups record
     <-> exists group members,
           group ∈ flattenGroups groupReps []
           /\ group_name group = name
           /\ outcome (getGroupMembers this (group_id group)) = Return members
           /\ user_id (uwg_user record) ∈ map user_id members).
Proof.
  intros Hconnected Husers Hgroups Hresult record name Hrecord.
  rewrite (getUsersWithGroups_connected this users groupReps
             Hconnected Husers Hgroups) in Hresult.
  cbv zeta in Hresult. cbn [outcome snd] in Hresult.
  rewrite (for_of_outcome (fetchMembers this) (membersStep (kc_client this))
             _ _ (fetchMembers_outcome this)) in Hresult.
  injection Hresult as <-.
  apply list_elem_of_fmap in Hrecord as (user & -> & Huser).
  cbn [uwg_groups uwg_user].
  rewrite (final_map_lookup _ _ _ _ Huser). cbn [nullish].
  rewrite elem_of_membershipsOf.
  assert (Hlookup : forall groupId,
    outcome (getGroupMembers this groupId)
    = match client_groups_listMembers (kc_client this) groupId 10000%N with
      | Return members => Return (map toUser members)
      | Throw e => Throw e
      end).
  { intros groupId. unfold getGroupMembers, ensureConnected.
    rewrite Hconnected.
    now destruct (client_groups_listMembers (kc_client this) groupId 10000%N). }
  split.
  - intros (group & members & Hgroup & Hname & Hlist & Hid).
    exists group, (map toUser members).
    rewrite Hlookup, Hlist. repeat split; try assumption.
    now rewrite map_map.
  - intros (group & members & Hgroup & Hname & Hlist & Hid).
    rewrite Hlookup in Hlist.
    destruct (client_groups_listMembers (kc_client this) (group_id group)
                10000%N) as [reps|e] eqn:Hreps; [|discriminate].
    injection Hlist as <-. rewrite map_map in Hid.
    exists group, reps. repeat split; assumption.
Qed.

Lemma getUsersWithGroups_agrees_with_getGroupMembers_witness :
  "ops" ∈ uwg_groups {| uwg_user := toUser bobRep;
                        uwg_groups := ["admins"; "ops"] |}
  <-> exists group members,
        group ∈ flattenGroups
                  [ mkGroupRepresentation "g1" "admins" (Some "/admins")
                      (Some [ mkGroupRepresentation "g3" "ops"
                                (Some "/admins/ops") None ]);
                    mkGroupRepresentation "g2" "guests" None (Some []) ] []
        /\ group_name group = "ops"
        /\ outcome (getGroupMembers sampleProvider (group_id group))
           = Return members
        /\ user_id (toUser bobRep) ∈ map user_id members.
Proof.
  apply (getUsersWithGroups_agrees_with_getGroupMembers sampleProvider
           [aliceRep; bobRep]
           [ mkGroupRepresentation "g1" "admins" (Some "/admins")
               (Some [ mkGroupRepresentation "g3" "ops" (Some "/admins/ops")
                         None ]);
             mkGroupRepresentation "g2" "guests" None (Some []) ]
           [ {| uwg_user := toUser aliceRep; uwg_groups := ["admins"] |};
             {| uwg_user := toUser bobRep; uwg_groups := ["admins"; "ops"] |} ]).
  - reflexivity.
  - reflexivity.
  - reflexivity.
  - vm_compute. reflexivity.
  - apply list_elem_of_further, list_elem_of_here.
Defined.

Lemma fromFile_silent (parseYaml : string -> Outcome ParsedMapping)
    (bun_file_text : string -> Outcome string) (filePath : string) :
  events (fromFile parseYaml bun_file_text filePath) = [].
Proof.
  unfold fromFile, await, bind, ret, throw.
  destruct (bun_file_text filePath) as [content|e]; [|reflexivity].
  destruct (parseYaml content) as [doc|e]; [|reflexivity].
  now destruct (parsed_groups doc).
Qed.

Lemma required_some (value message : string) :
  given (Some value) = true -> required (Some value) message = ret value.
Proof. destruct value; [discriminate|reflexivity]. Qed.

Lemma bind_ret {A B : Type} (a : A) (k : A -> IO B) : bind (ret a) k = k a.
Proof. unfold bind, ret. now destruct (k a). Qed.

Lemma bind_emit {B : Type} (ev : Event) (k : unit -> IO B) :
  bind (emit ev) k = (ev :: events (k tt), outcome (k tt)).
Proof. unfold bind, emit. now destruct (k tt). Qed.

(** X22. When the options are accepted and the mapping loads but the server
    refuses the credentials, the run ends after three lines with the
    connection error, the server's message behind the fixed prefix: no group
    and no user is fetched and nothing is written. *)
Theorem runSync_connection_refused
    (minimatch : string -> string -> bool)
    (parseYaml : string -> Outcome ParsedMapping)
    (bun_file_text : string -> Outcome string)
    (bun_write : string -> Document -> Outcome unit)
    (new_KcAdminClient : string -> string -> KcAdminClient)
    (options : SyncOptions) (url realm clientId clientSecret : string)
    (mappingLoader : MappingLoader) (e : JsError) :
  optionsAccepted options = true ->
  opt_keycloakUrl options = Some url ->
  opt_keycloakRealm options = Some realm ->
  opt_keycloakClientId options = Some clientId ->
  opt_keycloakClientSecret options = Some clientSecret ->
  outcome (fromFile parseYaml bun_file_text (opt_mapping options))
    = Return mappingLoader ->
  client_auth (new_KcAdminClient url realm) clientId clientSecret = Throw e ->
  runSync minimatch parseYaml bun_file_text bun_write new_KcAdminClient options
  = ([ ConsoleLog ("Starting sync..." +:+ nl);
       ConsoleLog ("Loading mapping from: " +:+ opt_mapping options);
       ConsoleLog ("✓ Loaded mapping with "
                   +:+ pretty (length (getDefinedGroups mappingLoader))
                   +:+ " groups defined" +:+ nl) ],
     Throw (new_Error ("Failed to connect to Keycloak: "
                       +:+ error_message e))).
Proof.
  intros Haccepted Hurl Hrealm Hid Hsecret Hload Hauth.
  unfold optionsAccepted in Haccepted.
  rewrite Hurl, Hrealm, Hid, Hsecret in Haccepted.
  repeat (apply andb_true_iff in Haccepted as [Haccepted ?]).
  assert (Hfile : fromFile parseYaml bun_file_text (opt_mapping options)
                  = ([], Return mappingLoader)).
  { pose proof (fromFile_silent parseYaml bun_file_text (opt_mapping options))
      as Hsilent.
    destruct (fromFile parseYaml bun_file_text (opt_mapping options))
      as [evs r]. cbn in Hsilent, Hload. now subst. }
  assert (Hconnect :
    connect (new_KeycloakProvider (new_KcAdminClient url realm)
               {| config_url := url; config_realm := realm;
                  config_clientId := clientId;
                  config_clientSecret := clientSecret |})
    = throw (new_Error ("Failed to connect to Keycloak: "
                        +:+ error_message e))).
  { unfold connect, new_KeycloakProvider.
    cbn [kc_client kc_config config_clientId config_clientSecret].
    now rewrite Hauth. }
  unfold runSync.
  rewrite Haccepted, Hurl, Hrealm, Hid, Hsecret, Hfile.
  rewrite !required_some by assumption.
  cbn [negb]. rewrite bind_emit, !bind_ret, bind_emit.
  change (@pair (list Event) (Outcome MappingLoader) [] (Return mappingLoader))
    with (ret mappingLoader).
  rewrite bind_ret, bind_emit, Hconnect. reflexivity.
Qed.

Lemma runSync_connection_refused_witness :
  runSync wildcardMatch sampleParse sampleFiles writableDisk
          (fun _ _ => refusingClient) writingOptions
  = ([ ConsoleLog ("Starting sync..." +:+ nl);
       ConsoleLog "Loading mapping from: empty-table.yaml";
       ConsoleLog ("✓ Loaded mapping with 0 groups defined" +:+ nl) ],
     Throw (new_Error "Failed to connect to Keycloak: invalid_client")).
Proof.
  etransitivity.
  - apply (runSync_connection_refused wildcardMatch sampleParse sampleFiles
             writableDisk (fun _ _ => refusingClient) writingOptions
             "https://idp.example.org" "main" "sync" "secret"
             (new_MappingLoader {| groups := ∅; defaults := None |})
             {| error_name := "Error"; error_message := "invalid_client" |});
      reflexivity.
  - vm_compute. reflexivity.
Defined.
